(** * GridInfectionSpread: threshold infection on N-dimensional grids

    A shallow embedding of [spread.py].  The two generator functions
    [spread_lattice] (bounded grid) and [spread_torus] (periodic grid) are
    modelled together with the handful of NumPy operations they call
    ([np.copy], [np.pad], [np.zeros_like], [np.roll], basic slicing,
    elementwise [+], [>=], [|], [==], [np.where] and [np.all]).

    An [ndarray] is a shape together with its cells in row-major (C) order,
    the layout NumPy gives to the arrays built by the program.  Cells are
    machine integers of the default integer dtype (int64); sums wrap around.
    The threshold [m] is a Python integer, hence an unbounded [Z].

    Scope: every [ndarray] below stands for an array of integer dtype, the
    dtype the program itself builds ([dtype=int], lines 79-80).  On an
    array of another dtype lines 33-37 and 69-72 behave differently: with
    bool cells [+] and [+=] are logical ors (modelled apart, see
    [np_add_as]), and with float cells [|] raises TypeError, which is not
    modelled. *)

From Stdlib Require Import List ZArith Lia Bool Arith.
Import ListNotations.

Set Implicit Arguments.

(** ** Machine integers of the array dtype *)

Module Int64.

Definition modulus : Z := 2 ^ 64.
Definition max_signed : Z := 2 ^ 63 - 1.
Definition min_signed : Z := - 2 ^ 63.

(** Two's complement reduction into [[min_signed, max_signed]]. *)
Definition wrap (z : Z) : Z :=
  ((z + 2 ^ 63) mod modulus - 2 ^ 63)%Z.

Definition add (x y : Z) : Z := wrap (x + y).

Definition in_range (z : Z) : Prop := (min_signed <= z <= max_signed)%Z.

End Int64.

(** ** N-dimensional arrays *)

Record ndarray : Type := mk_ndarray {
  shape : list nat;
  data : list Z
}.

Definition ndim (a : ndarray) : nat := length (shape a).

(** Number of cells of a shape ([np.prod(shape)]; [1] for the empty shape). *)
Definition prod (sh : list nat) : nat := fold_right Nat.mul 1%nat sh.

Definition size (a : ndarray) : nat := prod (shape a).

(** NumPy arrays always hold exactly [prod shape] cells. *)
Definition wf (a : ndarray) : Prop := length (data a) = size a.

(** All multi-indices of a shape, in row-major order ([np.ndindex]). *)
Fixpoint indices (sh : list nat) : list (list nat) :=
  match sh with
  | [] => [[]]
  | n :: sh' => flat_map (fun i => map (cons i) (indices sh')) (seq 0 n)
  end.

(** Flat row-major offset of a multi-index ([np.ravel_multi_index]). *)
Fixpoint ravel (sh idx : list nat) : nat :=
  match sh, idx with
  | _ :: sh', i :: idx' => i * prod sh' + ravel sh' idx'
  | _, _ => 0
  end.

Definition in_bounds (sh idx : list nat) : Prop := Forall2 lt idx sh.

(** [a[idx]]; reading outside the stored cells gives [0] and never happens
    on in-bounds indices of a well-formed array. *)
Definition item (a : ndarray) (idx : list nat) : Z :=
  nth (ravel (shape a) idx) (data a) 0%Z.

(** The array of the given shape whose cell at [idx] is [f idx]. *)
Definition tabulate (sh : list nat) (f : list nat -> Z) : ndarray :=
  mk_ndarray sh (map f (indices sh)).

Fixpoint zip_with {A B C : Type} (f : A -> B -> C) (xs : list A) (ys : list B)
  : list C :=
  match xs, ys with
  | x :: xs', y :: ys' => f x y :: zip_with f xs' ys'
  | _, _ => []
  end.

(** *** The NumPy operations used by the program *)

(** [np.copy(a)]: a fresh array with the same contents. *)
Definition np_copy (a : ndarray) : ndarray := mk_ndarray (shape a) (data a).

(** [np.zeros_like(a)]. *)
Definition np_zeros_like (a : ndarray) : ndarray :=
  tabulate (shape a) (fun _ => 0%Z).

(** Index read by [np.roll(a, k, axis)] when it fills cell [idx]: along
    [axis] the source position is [(idx[axis] - k) mod n]. *)
Fixpoint roll_source (sh idx : list nat) (k : Z) (axis : nat) : list nat :=
  match sh, idx with
  | n :: sh', i :: idx' =>
      match axis with
      | O => Z.to_nat ((Z.of_nat i - k) mod Z.of_nat n) :: idx'
      | S axis' => i :: roll_source sh' idx' k axis'
      end
  | _, _ => idx
  end.

(** [np.roll(a, k, axis=axis)]: cyclic shift by [k] along one axis. *)
Definition np_roll (a : ndarray) (k : Z) (axis : nat) : ndarray :=
  tabulate (shape a) (fun idx => item a (roll_source (shape a) idx k axis)).

(** Is [idx] (an index of the padded array) inside the original area? *)
Fixpoint interior (sh idx : list nat) : bool :=
  match sh, idx with
  | [], [] => true
  | n :: sh', i :: idx' => (1 <=? i)%nat && (i <=? n)%nat && interior sh' idx'
  | _, _ => false
  end.

(** [np.pad(a, 1, 'constant', constant_values=0)]: one cell of zeros on both
    sides of every axis. *)
Definition np_pad1 (a : ndarray) : ndarray :=
  tabulate (map (fun n => n + 2) (shape a))
    (fun idx => if interior (shape a) idx then item a (map pred idx) else 0%Z).

(** [w[tuple(slice(1,-1) for i in range(w.ndim))]]: drop the first and the
    last position of every axis. *)
Definition slice_inner (w : ndarray) : ndarray :=
  tabulate (map (fun n => n - 2) (shape w)) (fun idx => item w (map S idx)).

(** Elementwise [a + b] on integer (int64) arrays of the same shape. *)
Definition np_add (a b : ndarray) : ndarray :=
  mk_ndarray (shape a) (zip_with Int64.add (data a) (data b)).

(** [np.where(weight >= m, 1, 0)]. *)
Definition np_where_ge (weight : ndarray) (m : Z) : ndarray :=
  mk_ndarray (shape weight)
    (map (fun w => if (m <=? w)%Z then 1%Z else 0%Z) (data weight)).

(** Elementwise bitwise or, [a | b], on integer arrays. *)
Definition np_or (a b : ndarray) : ndarray :=
  mk_ndarray (shape a) (zip_with Z.lor (data a) (data b)).

(** [a == b], elementwise, as a list of truth values. *)
Definition np_equal (a b : ndarray) : list bool :=
  zip_with Z.eqb (data a) (data b).

(** [np.all]. *)
Definition np_all (bs : list bool) : bool := forallb (fun b => b) bs.

(** ** The loop bodies *)

(** Lines 32-36 of [spread_lattice] on an integer array: the value of
    [weight] when line 37 is reached. *)
Definition lattice_weight (infected : ndarray) : ndarray :=
  let padded := np_pad1 infected in
  let weight := np_zeros_like padded in
  let weight :=
    fold_left
      (fun weight i =>
         np_add weight (np_add (np_roll padded 1 i) (np_roll padded (-1) i)))
      (seq 0 (ndim padded)) weight in
  slice_inner weight.

(** Lines 32-37 of [spread_lattice]: the value bound to [infected] at the end
    of one pass through the loop body. *)
Definition lattice_update (m : Z) (infected : ndarray) : ndarray :=
  let weight := lattice_weight infected in
  np_or (np_where_ge weight m) infected.

(** Lines 69-71 of [spread_torus] on an integer array: the value of
    [weight] when line 72 is reached. *)
Definition torus_weight (infected : ndarray) : ndarray :=
  let weight := np_zeros_like infected in
  fold_left
    (fun weight i =>
       np_add weight (np_add (np_roll infected 1 i) (np_roll infected (-1) i)))
    (seq 0 (ndim infected)) weight.

(** Lines 69-72 of [spread_torus]. *)
Definition torus_update (m : Z) (infected : ndarray) : ndarray :=
  let weight := torus_weight infected in
  np_or (np_where_ge weight m) infected.

(** ** Generators *)

(** Where a generator of this program can be suspended. *)
Inductive frame : Type :=
| Created (start : ndarray)        (* body not entered yet *)
| Suspended (infected : ndarray)   (* stopped at [yield infected] *)
| Finished.                        (* the [break] was taken *)

(** One [next()] on a [spread_lattice] generator: [Some v] is a yielded
    value, [None] is [StopIteration]. *)
Definition lattice_next (m : Z) (f : frame) : option ndarray * frame :=
  match f with
  | Created start =>
      let infected := np_copy start in
      (Some infected, Suspended infected)
  | Suspended infected =>
      let last_infected := np_copy infected in
      let infected := lattice_update m infected in
      if np_all (np_equal infected last_infected)
      then (None, Finished)
      else (Some infected, Suspended infected)
  | Finished => (None, Finished)
  end.

(** One [next()] on a [spread_torus] generator. *)
Definition torus_next (m : Z) (f : frame) : option ndarray * frame :=
  match f with
  | Created start =>
      let infected := np_copy start in
      (Some infected, Suspended infected)
  | Suspended infected =>
      let last_infected := np_copy infected in
      let infected := torus_update m infected in
      if np_all (np_equal infected last_infected)
      then (None, Finished)
      else (Some infected, Suspended infected)
  | Finished => (None, Finished)
  end.

Record generator : Type := mk_generator {
  gi_code : frame -> option ndarray * frame;
  gi_frame : frame
}.

Definition next (g : generator) : option ndarray * generator :=
  let (v, f) := gi_code g (gi_frame g) in (v, mk_generator (gi_code g) f).

(** Result of a Python call: a value, or an exception. *)
Inductive exn : Type := ValueError | TypeError.

Inductive outcome (A : Type) : Type :=
| Returns (a : A)
| Raises (e : exn).

Arguments Raises {A} e.

(** Calling a generator function binds the arguments and returns the
    generator object; no line of the body runs before the first [next()]. *)
Definition spread_lattice (start : ndarray) (m : Z) : outcome generator :=
  Returns (mk_generator (lattice_next m) (Created start)).

Definition spread_torus (start : ndarray) (m : Z) : outcome generator :=
  Returns (mk_generator (torus_next m) (Created start)).

(** [list(g)], with a bound on the number of [next()] calls: [None] when the
    bound is reached before [StopIteration]. *)
Fixpoint drain (fuel : nat) (g : generator) : option (list ndarray) :=
  match fuel with
  | O => None
  | S fuel' =>
      match next g with
      | (None, _) => Some []
      | (Some v, g') =>
          match drain fuel' g' with
          | Some vs => Some (v :: vs)
          | None => None
          end
      end
  end.

(** The call returns a generator that yields exactly [vs] and then stops. *)
Definition produces (call : outcome generator) (vs : list ndarray) : Prop :=
  exists g fuel, call = Returns g /\ drain fuel g = Some vs.

Definition bit (z : Z) : Prop := z = 0%Z \/ z = 1%Z.

(** The control skeleton shared by the two bodies: [yield], update, compare,
    [break].  [lattice_next m] and [torus_next m] are instances of it. *)
Definition loop_next (step : ndarray -> ndarray) (f : frame)
  : option ndarray * frame :=
  match f with
  | Created start => (Some (np_copy start), Suspended (np_copy start))
  | Suspended infected =>
      if np_all (np_equal (step infected) (np_copy infected))
      then (None, Finished)
      else (Some (step infected), Suspended (step infected))
  | Finished => (None, Finished)
  end.

(** What both loop bodies do to a well-formed array: keep the shape and or a
    0/1 value into every cell. *)
Definition or_step (step : ndarray -> ndarray) : Prop :=
  forall a, wf a ->
    shape (step a) = shape a /\
    exists bs, length bs = length (data a) /\ Forall bit bs /\
               data (step a) = zip_with Z.lor bs (data a).

(** The states the loop goes through: [iterate step k start] is the value of
    [infected] after [k] passes through the loop body. *)
Definition iterate (step : ndarray -> ndarray) (k : nat) (start : ndarray)
  : ndarray :=
  Nat.iter k step start.

Definition trajectory (step : ndarray -> ndarray) (start : ndarray) (n : nat)
  : list ndarray :=
  map (fun k => iterate step k start) (seq 0 (S n)).

(** Cells that can still change: an update ors a [0] or a [1] into a cell,
    which alters the cell only when its lowest bit is clear. *)
Definition susceptible (cells : list Z) : nat :=
  length (filter Z.even cells).

(** A grid state: a well-formed array of 0/1 cells. *)
Definition grid (a : ndarray) : Prop := wf a /\ Forall bit (data a).

(** Sums of [2 * ndim] cells of a grid fit the dtype.  NumPy arrays have at
    most 64 dimensions, so this holds of every array NumPy can build. *)
Definition dims_fit (a : ndarray) : Prop :=
  (2 * Z.of_nat (ndim a) <= Int64.max_signed)%Z.

(** The loop meets its first repeated state after [n] passes: the states
    before are pairwise different from their successors. *)
Definition stops_at (step : ndarray -> ndarray) (start : ndarray) (n : nat)
  : Prop :=
  (forall k, k < n -> iterate step (S k) start <> iterate step k start) /\
  iterate step (S n) start = iterate step n start.

(** Array literal, [np.array(cells).reshape(sh)]. *)
Definition array (sh : list nat) (cells : list Z) : ndarray :=
  mk_ndarray sh cells.

(** The initial grid of scenarios A and B. *)
Definition centre_seed : ndarray := array [5] [0; 0; 1; 0; 0]%Z.

(** The three states of scenario A, in order. *)
Definition scenario_A_states : list ndarray :=
  [centre_seed; array [5] [0; 1; 1; 1; 0]%Z; array [5] [1; 1; 1; 1; 1]%Z].

(** A 2 x 2 grid with one infected diagonal. *)
Definition diagonal : ndarray := array [2; 2] [1; 0; 0; 1]%Z.

(** A grid infected at its left end only. *)
Definition corner_seed : ndarray := array [5] [1; 0; 0; 0; 0]%Z.





(** The grid of the given shape in which every cell is infected. *)
Definition all_infected (sh : list nat) : ndarray := tabulate sh (fun _ => 1%Z).

(** What axis [i] adds to the count of cell [idx] when the array is rolled
    cyclically: the cell one step back and the cell one step forward. *)
Definition axis_term (x : ndarray) (idx : list nat) (i : nat) : Z :=
  (item x (roll_source (shape x) idx 1 i) +
   item x (roll_source (shape x) idx (-1) i))%Z.

Definition sum_over (axes : list nat) (f : nat -> Z) : Z :=
  fold_right (fun i acc => (f i + acc)%Z) 0%Z axes.

(** Number of infected cyclic neighbours of cell [idx], as an unbounded
    integer. *)
Definition neighbours (x : ndarray) (idx : list nat) : Z :=
  sum_over (seq 0 (ndim x)) (axis_term x idx).

(** Cellwise order on arrays of one shape. *)
Definition below (x y : ndarray) : Prop :=
  shape x = shape y /\ Forall2 Z.le (data x) (data y).

(** ** Counting neighbours by position *)

(** Multi-index [idx] with the coordinate of [axis] replaced by [v]. *)
Fixpoint set_axis (idx : list nat) (axis v : nat) : list nat :=
  match idx, axis with
  | [], _ => []
  | _ :: idx', O => v :: idx'
  | i :: idx', S axis' => i :: set_axis idx' axis' v
  end.

(** Infected neighbours of cell [idx] along [axis] on the bounded grid: the
    cell before, when there is one, and the cell after, when there is one. *)
Definition lattice_term (a : ndarray) (idx : list nat) (axis : nat) : Z :=
  let p := nth axis idx 0 in
  let n := nth axis (shape a) 0 in
  ((if (1 <=? p)%nat then item a (set_axis idx axis (p - 1)) else 0) +
   (if (p + 2 <=? n)%nat then item a (set_axis idx axis (p + 1)) else 0))%Z.

Definition lattice_neighbours (a : ndarray) (idx : list nat) : Z :=
  sum_over (seq 0 (ndim a)) (lattice_term a idx).

(** Infected neighbours of cell [idx] along [axis] on the periodic grid: the
    cells one step back and one step forward, coordinates taken modulo the
    length of the axis. *)
Definition torus_term (a : ndarray) (idx : list nat) (axis : nat) : Z :=
  let p := nth axis idx 0 in
  let n := nth axis (shape a) 0 in
  (item a (set_axis idx axis ((p + n - 1) mod n)) +
   item a (set_axis idx axis ((p + 1) mod n)))%Z.

Definition torus_neighbours (a : ndarray) (idx : list nat) : Z :=
  sum_over (seq 0 (ndim a)) (torus_term a idx).

(** Number of infected cells. *)
Definition infected_count (a : ndarray) : nat :=
  length (filter (Z.eqb 1) (data a)).

(** ** The demonstration program (lines 77-91) *)

(** [np.zeros(sh, dtype=int)]. *)
Definition np_zeros (sh : list nat) : ndarray := tabulate sh (fun _ => 0%Z).

(** [np.eye(n, n, dtype=int)]: ones on the main diagonal. *)
Definition np_eye (n : nat) : ndarray :=
  tabulate [n; n]
    (fun idx =>
       match idx with
       | [r; c] => if (r =? c)%nat then 1%Z else 0%Z
       | _ => 0%Z
       end).

Fixpoint same_shape (sh1 sh2 : list nat) : bool :=
  match sh1, sh2 with
  | [], [] => true
  | n1 :: sh1', n2 :: sh2' => (n1 =? n2)%nat && same_shape sh1' sh2'
  | _, _ => false
  end.

(** [a[i] = v] for a non-negative [i] and an array [v] that has the shape
    of one slab [a[i]]: the cells of slab [i] are overwritten, in place in
    the program, hence the new value of [a] here.  [None] when [i] is out of
    range (IndexError); values of another shape, which NumPy broadcasts or
    refuses, are left out and also give [None]. *)
Definition setitem_slab (a : ndarray) (i : nat) (v : ndarray)
  : option ndarray :=
  match shape a with
  | [] => None
  | n :: sh' =>
      if (i <? n)%nat && same_shape sh' (shape v)
      then Some (mk_ndarray (shape a)
                   (firstn (i * prod sh') (data a) ++ data v ++
                    skipn (S i * prod sh') (data a)))
      else None
  end.

(** Lines 79-83, with [N] as a parameter: the value of [start] after the
    first loop.  The loop state is the pair [(start, plane)]. *)
Definition demo_start (N : nat) : option ndarray :=
  let start := np_zeros [N; N; N] in
  let plane := np_eye N in
  option_map fst
    (fold_left
       (fun st i =>
          match st with
          | Some (start, plane) =>
              match setitem_slab start i plane with
              | Some start' => Some (start', np_roll plane 1 0)
              | None => None
              end
          | None => None
          end)
       (seq 0 N) (Some (start, plane))).

(** The value of [plane] when the first loop reaches slab [i]. *)
Definition demo_plane (N i : nat) : ndarray :=
  Nat.iter i (fun plane => np_roll plane 1 0) (np_eye N).

(** What the program prints, one entry per [print] call. *)
Inductive output_line : Type :=
| StepHeader (i : nat)          (* print(f"Step {i}:") *)
| StateDump (state : ndarray)   (* print(state) *)
| EmptyLine                     (* print() *)
| AllCellsInfected              (* the message of line 89 *)
| SpreadHasStopped.             (* the message of line 91 *)

(** Lines 84-87: the body of the second loop for the states [vs], numbered
    from [i] by [enumerate]. *)
Fixpoint report_from (i : nat) (vs : list ndarray) : list output_line :=
  match vs with
  | [] => []
  | state :: vs' =>
      StepHeader i :: StateDump state :: EmptyLine :: report_from (S i) vs'
  end.

(** [np.all(state == 1)]. *)
Definition all_ones (state : ndarray) : bool :=
  np_all (map (fun v => (v =? 1)%Z) (data state)).

(** Lines 78-91 with [N] as a parameter; the program has [N = 10].  The
    call [spread_lattice(start)] takes the default threshold 2.  [None]
    when an exception is raised or when the generator is not exhausted
    within [fuel] calls of [next()]; an empty sequence would leave [state]
    unbound at line 88 (NameError). *)
Definition demo_main (N fuel : nat) : option (list output_line) :=
  match demo_start N with
  | None => None
  | Some start =>
      match spread_lattice start 2 with
      | Raises _ => None
      | Returns g =>
          match drain fuel g with
          | None => None
          | Some [] => None
          | Some (first :: rest) =>
              let state := last rest first in
              Some (report_from 0 (first :: rest) ++
                    [if all_ones state then AllCellsInfected
                     else SpreadHasStopped])
          end
      end
  end.

(** ** Sums in the dtype of the caller's array *)







(** ** Lists *)

Section ZipWith.

Context {A B C : Type} (f : A -> B -> C).

Lemma length_zip_with (xs : list A) (ys : list B) :
  length xs = length ys -> length (zip_with f xs ys) = length ys.
Proof.
  revert ys; induction xs as [|x xs IH]; intros [|y ys] H; simpl in *;
    try discriminate; auto.
Qed.

Lemma nth_zip_with (xs : list A) (ys : list B) (j : nat) dA dB dC :
  length xs = length ys -> j < length ys ->
  nth j (zip_with f xs ys) dC = f (nth j xs dA) (nth j ys dB).
Proof.
  revert ys j; induction xs as [|x xs IH]; intros [|y ys] j H Hj;
    simpl in *; try discriminate; try lia.
  destruct j; auto. apply IH; lia.
Qed.

End ZipWith.

Lemma np_all_equal_iff (xs ys : list Z) :
  length xs = length ys ->
  np_all (zip_with Z.eqb xs ys) = true <-> xs = ys.
Proof.
  revert ys; induction xs as [|x xs IH]; intros [|y ys] H; simpl in *;
    try discriminate; try tauto.
  rewrite andb_true_iff, Z.eqb_eq, IH by lia.
  split; [intros [-> ->]; reflexivity | intros E; inversion E; auto].
Qed.

(** ** Bitwise or with a 0/1 value *)

Lemma lor_1_odd (v : Z) : Z.odd v = true -> Z.lor 1 v = v.
Proof.
  intros Hv. apply Z.bits_inj'. intros n Hn. rewrite Z.lor_spec.
  destruct (Z.eq_dec n 0) as [->|Hne].
  - rewrite !Z.bit0_odd, Hv. reflexivity.
  - change 1%Z with (2 ^ 0)%Z. rewrite Z.pow2_bits_false by lia. reflexivity.
Qed.

Lemma lor_1_is_odd (v : Z) : Z.even (Z.lor 1 v) = false.
Proof.
  rewrite <- Z.negb_odd, <- Z.bit0_odd, Z.lor_spec. reflexivity.
Qed.

Lemma lor_bit_one (b : Z) : bit b -> Z.lor b 1 = 1%Z.
Proof. intros [->| ->]; reflexivity. Qed.

Lemma lor_bit_bit (b v : Z) : bit b -> bit v -> bit (Z.lor b v).
Proof. intros [->| ->] [->| ->]; simpl; unfold bit; auto. Qed.

Lemma lor_bit_cases (b v : Z) :
  bit b ->
  Z.lor b v = v \/ (Z.even v = true /\ Z.even (Z.lor b v) = false).
Proof.
  intros [->| ->].
  - left. apply Z.lor_0_l.
  - destruct (Z.even v) eqn:E.
    + right. split; [reflexivity | apply lor_1_is_odd].
    + left. apply lor_1_odd. rewrite <- Z.negb_even, E. reflexivity.
Qed.

Lemma susceptible_le_length (l : list Z) : susceptible l <= length l.
Proof. apply filter_length_le. Qed.

Lemma susceptible_or (bs l : list Z) :
  length bs = length l -> Forall bit bs ->
  susceptible (zip_with Z.lor bs l) <= susceptible l /\
  (zip_with Z.lor bs l <> l -> susceptible (zip_with Z.lor bs l) < susceptible l).
Proof.
  unfold susceptible.
  revert l; induction bs as [|b bs IH]; intros [|v l] Hlen Hb; simpl in *;
    try discriminate.
  - split; [lia | congruence].
  - inversion Hb as [|? ? Hb1 Hb2]; subst.
    destruct (IH l ltac:(lia) Hb2) as [IHle IHlt].
    destruct (lor_bit_cases v Hb1) as [E | [Ev Eo]].
    + rewrite E. destruct (Z.even v); simpl.
      * split; [lia|]. intros N. apply -> Nat.succ_lt_mono. apply IHlt. congruence.
      * split; [lia|]. intros N. apply IHlt. congruence.
    + rewrite Ev, Eo. simpl. split; lia.
Qed.

(** ** The generator loop *)

Lemma lattice_next_skeleton (m : Z) (f : frame) :
  lattice_next m f = loop_next (lattice_update m) f.
Proof. destruct f; reflexivity. Qed.

Lemma torus_next_skeleton (m : Z) (f : frame) :
  torus_next m f = loop_next (torus_update m) f.
Proof. destruct f; reflexivity. Qed.


Lemma np_copy_id (a : ndarray) : np_copy a = a.
Proof. destruct a; reflexivity. Qed.

Lemma ndarray_eq (a b : ndarray) :
  shape a = shape b -> data a = data b -> a = b.
Proof. destruct a, b; simpl; intros -> ->; reflexivity. Qed.

Lemma iterate_succ_r (step : ndarray -> ndarray) (k : nat) (a : ndarray) :
  iterate step (S k) a = iterate step k (step a).
Proof. unfold iterate. apply Nat.iter_succ_r. Qed.

Lemma drain_mono (fuel fuel' : nat) (g : generator) (vs : list ndarray) :
  drain fuel g = Some vs -> fuel <= fuel' -> drain fuel' g = Some vs.
Proof.
  revert fuel' g vs; induction fuel as [|fuel IH]; intros fuel' g vs H Hle;
    simpl in H; [discriminate|].
  destruct fuel' as [|fuel']; [lia|]. simpl.
  destruct (next g) as [[v|] g']; [|exact H].
  destruct (drain fuel g') as [ws|] eqn:E; [|discriminate].
  rewrite (IH fuel' g' ws E) by lia. exact H.
Qed.

Lemma drain_deterministic (fuel fuel' : nat) (g : generator) vs vs' :
  drain fuel g = Some vs -> drain fuel' g = Some vs' -> vs = vs'.
Proof.
  intros H H'.
  apply (drain_mono (fuel' := Nat.max fuel fuel')) in H; [|lia].
  apply (drain_mono (fuel' := Nat.max fuel fuel')) in H'; [|lia].
  congruence.
Qed.

Lemma produces_deterministic (call : outcome generator) vs vs' :
  produces call vs -> produces call vs' -> vs = vs'.
Proof.
  intros (g & fuel & Hg & H) (g' & fuel' & Hg' & H').
  rewrite Hg in Hg'. inversion Hg'; subst g'.
  eapply drain_deterministic; eassumption.
Qed.

Section Loop.

Variable step : ndarray -> ndarray.
Hypothesis step_or : or_step step.

Lemma step_shape (a : ndarray) : wf a -> shape (step a) = shape a.
Proof. intros H. apply (step_or H). Qed.

Lemma step_wf (a : ndarray) : wf a -> wf (step a).
Proof.
  intros H. destruct (step_or H) as (Hs & bs & Hl & _ & Hd).
  unfold wf, size in *. rewrite Hs, Hd, length_zip_with; auto.
Qed.

Lemma step_grid (a : ndarray) : grid a -> grid (step a).
Proof.
  intros [H Hb]. split; [apply step_wf; exact H|].
  destruct (step_or H) as (_ & bs & Hl & Hbs & ->).
  clear H. revert bs Hl Hbs.
  induction Hb as [|v l Hv Hb IH]; intros [|b bs] Hl Hbs; simpl in *;
    try discriminate; constructor; inversion Hbs; subst.
  - apply lor_bit_bit; assumption.
  - apply IH; [lia | assumption].
Qed.

Lemma iterate_wf (k : nat) (a : ndarray) : wf a -> wf (iterate step k a).
Proof.
  intros H. induction k as [|k IH]; [exact H|]. apply step_wf. exact IH.
Qed.

Lemma iterate_grid (k : nat) (a : ndarray) : grid a -> grid (iterate step k a).
Proof.
  intros H. induction k as [|k IH]; [exact H|]. apply step_grid. exact IH.
Qed.

Lemma iterate_shape (k : nat) (a : ndarray) :
  wf a -> shape (iterate step k a) = shape a.
Proof.
  intros H. induction k as [|k IH]; [reflexivity|].
  change (shape (step (iterate step k a)) = shape a).
  rewrite step_shape; [exact IH | apply iterate_wf; exact H].
Qed.

(** The convergence test of the loop decides equality of the two states. *)
Lemma converged_iff (a : ndarray) :
  wf a -> np_all (np_equal (step a) (np_copy a)) = true <-> step a = a.
Proof.
  intros H. rewrite np_copy_id. unfold np_equal.
  assert (Hl : length (data (step a)) = length (data a)).
  { pose proof (step_wf H) as H'. unfold wf, size in *.
    rewrite H', H, step_shape; auto. }
  rewrite np_all_equal_iff by exact Hl.
  split; [|congruence]. intros E. apply ndarray_eq; [apply step_shape|]; auto.
Qed.

Lemma step_susceptible (a : ndarray) :
  wf a -> step a <> a ->
  susceptible (data (step a)) < susceptible (data a).
Proof.
  intros H N. pose proof (step_shape H) as Hs.
  destruct (step_or H) as (_ & bs & Hl & Hbs & Hd).
  rewrite Hd. apply susceptible_or; auto.
  intros E. apply N. apply ndarray_eq; congruence.
Qed.

(** A cell holding [1] keeps holding [1]. *)
Lemma step_keeps_infected (a : ndarray) (idx : list nat) :
  wf a -> item a idx = 1%Z -> item (step a) idx = 1%Z.
Proof.
  intros H. unfold item. rewrite (step_shape H).
  destruct (step_or H) as (_ & bs & Hl & Hbs & ->).
  set (j := ravel (shape a) idx). intros Hj.
  assert (j < length (data a)).
  { destruct (Nat.lt_ge_cases j (length (data a))); [assumption|].
    rewrite nth_overflow in Hj; [discriminate | assumption]. }
  rewrite (nth_zip_with Z.lor bs (data a) 0%Z 0%Z 0%Z) by assumption.
  rewrite Hj. apply lor_bit_one.
  rewrite Forall_forall in Hbs. apply Hbs, nth_In. lia.
Qed.

Let gen (f : frame) : generator := mk_generator (loop_next step) f.

(** From a suspended generator: the loop runs through [n] further distinct
    states, for some [n] bounded by the number of cells that can still
    change, then meets a repeated state and stops. *)
Lemma drain_suspended (c : nat) :
  forall a, wf a -> susceptible (data a) <= c ->
  exists n, n <= c /\
    (forall k, k < n -> iterate step (S k) a <> iterate step k a) /\
    iterate step (S n) a = iterate step n a /\
    forall fuel, n + 1 <= fuel ->
      drain fuel (gen (Suspended a)) =
      Some (map (fun k => iterate step (S k) a) (seq 0 n)).
Proof.
  induction c as [|c IH]; intros a H Hc;
    destruct (np_all (np_equal (step a) (np_copy a))) eqn:T.
  1, 3: apply converged_iff in T; [|exact H];
    exists 0; split; [lia|]; split; [intros; lia|]; split; [exact T|];
    intros [|fuel] Hf; [lia|]; simpl; unfold next; simpl;
    rewrite (proj2 (converged_iff H) T); reflexivity.
  - assert (N : step a <> a).
    { intros E. apply (converged_iff H) in E. congruence. }
    pose proof (step_susceptible H N). lia.
  - assert (N : step a <> a).
    { intros E. apply (converged_iff H) in E. congruence. }
    pose proof (step_susceptible H N) as Hlt.
    destruct (IH (step a) (step_wf H) ltac:(lia)) as (n & Hn & Hd & He & Hr).
    exists (S n). split; [lia|]. split; [|split].
    + intros [|k] Hk; [exact N|]. rewrite (iterate_succ_r step (S k) a),
        (iterate_succ_r step k a). apply Hd. lia.
    + rewrite (iterate_succ_r step (S n) a), (iterate_succ_r step n a).
      exact He.
    + intros [|fuel] Hf; [lia|]. simpl. unfold next. simpl. rewrite T.
      fold (gen (Suspended (step a))). rewrite Hr by lia.
      rewrite <- seq_shift, map_map. f_equal. f_equal.
      apply map_ext. intros k. symmetry. apply iterate_succ_r.
Qed.

(** From a fresh generator: the initial state, then the distinct states up
    to the first repetition, which is not produced. *)
Lemma drain_created (a : ndarray) :
  wf a ->
  exists n, n <= susceptible (data a) /\
    (forall k, k < n -> iterate step (S k) a <> iterate step k a) /\
    iterate step (S n) a = iterate step n a /\
    forall fuel, n + 2 <= fuel ->
      drain fuel (gen (Created a)) = Some (trajectory step a n).
Proof.
  intros H.
  destruct (drain_suspended H (le_n _)) as (n & Hn & Hd & He & Hr).
  exists n. repeat split; try assumption.
  intros [|fuel] Hf; [lia|]. simpl. unfold next. simpl.
  rewrite np_copy_id. fold (gen (Suspended a)). rewrite Hr by lia.
  unfold trajectory. simpl. rewrite <- seq_shift, map_map. reflexivity.
Qed.

Lemma loop_produces (a : ndarray) :
  wf a ->
  exists n, n <= susceptible (data a) /\ stops_at step a n /\
    produces (Returns (gen (Created a))) (trajectory step a n).
Proof.
  intros H. destruct (drain_created H) as (n & Hn & Hd & He & Hr).
  exists n. split; [exact Hn|]. split; [split; assumption|].
  exists (gen (Created a)), (n + 2). split; [reflexivity | apply Hr; lia].
Qed.

Lemma loop_produced (a : ndarray) (vs : list ndarray) :
  wf a -> produces (Returns (gen (Created a))) vs ->
  exists n, n <= susceptible (data a) /\ stops_at step a n /\
    vs = trajectory step a n.
Proof.
  intros H Hvs. destruct (loop_produces H) as (n & Hn & Hs & Hp).
  exists n. repeat split; try apply Hs; try assumption.
  eapply produces_deterministic; eassumption.
Qed.

Lemma nth_error_trajectory (a s : ndarray) (n i : nat) :
  nth_error (trajectory step a n) i = Some s ->
  i <= n /\ s = iterate step i a.
Proof.
  unfold trajectory. intros H.
  assert (Hi : i < S n).
  { rewrite <- (length_seq (S n) 0), <- (length_map (fun k => iterate step k a)).
    apply nth_error_Some. congruence. }
  split; [lia|].
  rewrite nth_error_map in H.
  rewrite (nth_error_nth' _ 0) in H by (rewrite length_seq; exact Hi).
  rewrite seq_nth in H by exact Hi. simpl in H. congruence.
Qed.

Lemma last_trajectory (a d : ndarray) (n : nat) :
  last (trajectory step a n) d = iterate step n a.
Proof.
  unfold trajectory. rewrite seq_S, map_app. simpl. apply last_last.
Qed.

Lemma iterate_keeps_infected (a : ndarray) (idx : list nat) (k d : nat) :
  wf a -> item (iterate step k a) idx = 1%Z ->
  item (iterate step (d + k) a) idx = 1%Z.
Proof.
  intros H Hk. induction d as [|d IH]; [exact Hk|].
  change (item (step (iterate step (d + k) a)) idx = 1%Z).
  apply step_keeps_infected; [apply iterate_wf; exact H | exact IH].
Qed.

End Loop.

(** ** Multi-indices *)

Lemma length_indices (sh : list nat) : length (indices sh) = prod sh.
Proof.
  induction sh as [|n sh IH]; [reflexivity|]. simpl.
  rewrite flat_map_constant_length with (c := prod sh).
  - rewrite length_seq. reflexivity.
  - intros i _. rewrite length_map. exact IH.
Qed.

Lemma in_indices (sh idx : list nat) : In idx (indices sh) -> in_bounds sh idx.
Proof.
  revert idx; induction sh as [|n sh IH]; intros idx H; simpl in H.
  - destruct H as [<-|[]]. constructor.
  - apply in_flat_map in H. destruct H as (i & Hi & H).
    apply in_map_iff in H. destruct H as (idx' & <- & H').
    apply in_seq in Hi. constructor; [lia | apply IH; exact H'].
Qed.

Lemma ravel_lt (sh idx : list nat) : in_bounds sh idx -> ravel sh idx < prod sh.
Proof.
  intros H. induction H as [|i n idx sh Hi H IH]; simpl; [lia | nia].
Qed.

Lemma nth_flat_map_block {A : Type} (g : nat -> list A) (p : nat) (d : A) :
  (forall x, length (g x) = p) ->
  forall n s i r, i < n -> r < p ->
    nth (i * p + r) (flat_map g (seq s n)) d = nth r (g (s + i)) d.
Proof.
  intros Hg. induction n as [|n IH]; intros s i r Hi Hr; [lia|]. simpl.
  destruct i as [|i].
  - rewrite app_nth1 by (rewrite Hg; exact Hr). rewrite Nat.add_0_r. reflexivity.
  - rewrite app_nth2 by (rewrite Hg; simpl; lia).
    rewrite Hg. replace (S i * p + r - p) with (i * p + r) by (simpl; lia).
    rewrite IH by lia. f_equal. f_equal. lia.
Qed.

Lemma nth_indices (sh idx d : list nat) :
  in_bounds sh idx -> nth (ravel sh idx) (indices sh) d = idx.
Proof.
  intros H. induction H as [|i n idx sh Hi H IH]; [reflexivity|]. simpl.
  rewrite nth_flat_map_block with (p := prod sh); auto.
  - rewrite nth_indep with (d' := i :: d).
    + rewrite map_nth. simpl. rewrite IH. reflexivity.
    + rewrite length_map, length_indices. apply ravel_lt. exact H.
  - intros x. rewrite length_map. apply length_indices.
  - apply ravel_lt. exact H.
Qed.

Lemma item_tabulate (sh : list nat) (f : list nat -> Z) (idx : list nat) :
  in_bounds sh idx -> item (tabulate sh f) idx = f idx.
Proof.
  intros H. unfold item, tabulate. simpl.
  rewrite nth_indep with (d' := f []).
  - rewrite map_nth, nth_indices by exact H. reflexivity.
  - rewrite length_map, length_indices. apply ravel_lt. exact H.
Qed.

Lemma tabulate_wf (sh : list nat) (f : list nat -> Z) : wf (tabulate sh f).
Proof. unfold wf, size. simpl. rewrite length_map. apply length_indices. Qed.

Lemma pad_unpad (sh : list nat) :
  map (fun n => n - 2) (map (fun n => n + 2) sh) = sh.
Proof.
  rewrite map_map. rewrite <- (map_id sh) at 2. apply map_ext. intros; lia.
Qed.

(** ** Shapes of the neighbour counts *)

Lemma roll_sum_shape (x : ndarray) (axes : list nat) :
  forall w, shape w = shape x -> length (data w) = prod (shape x) ->
    let w' :=
      fold_left
        (fun weight i =>
           np_add weight (np_add (np_roll x 1 i) (np_roll x (-1) i)))
        axes w in
    shape w' = shape x /\ length (data w') = prod (shape x).
Proof.
  induction axes as [|i axes IH]; intros w Hs Hl; simpl; [auto|].
  apply IH; simpl; [exact Hs|].
  rewrite !length_zip_with; rewrite ?length_map, ?length_indices; auto.
  rewrite length_zip_with; rewrite ?length_map, ?length_indices; auto.
Qed.

Lemma torus_weight_shape (a : ndarray) :
  shape (torus_weight a) = shape a /\
  length (data (torus_weight a)) = size a.
Proof.
  unfold torus_weight, size. apply roll_sum_shape; simpl; auto.
  rewrite length_map. apply length_indices.
Qed.

Lemma lattice_weight_shape (a : ndarray) :
  shape (lattice_weight a) = shape a /\
  length (data (lattice_weight a)) = size a.
Proof.
  unfold lattice_weight, size.
  match goal with |- context [slice_inner ?w] => set (W := w) end.
  assert (HW : shape W = shape (np_pad1 a)).
  { apply roll_sum_shape; simpl; auto. rewrite length_map. apply length_indices. }
  simpl. rewrite length_map, length_indices, HW. simpl.
  rewrite pad_unpad. auto.
Qed.

Lemma threshold_or_step (weight : ndarray -> ndarray) (m : Z) :
  (forall a, shape (weight a) = shape a /\ length (data (weight a)) = size a) ->
  or_step (fun a => np_or (np_where_ge (weight a) m) a).
Proof.
  intros Hw a H. destruct (Hw a) as [Hs Hl]. simpl. split; [exact Hs|].
  exists (map (fun w => if (m <=? w)%Z then 1%Z else 0%Z) (data (weight a))).
  split; [rewrite length_map; congruence|]. split; [|reflexivity].
  apply Forall_map, Forall_forall. intros w _. unfold bit.
  destruct (m <=? w)%Z; auto.
Qed.

Lemma lattice_or_step (m : Z) : or_step (lattice_update m).
Proof. apply threshold_or_step, lattice_weight_shape. Qed.

Lemma torus_or_step (m : Z) : or_step (torus_update m).
Proof. apply threshold_or_step, torus_weight_shape. Qed.

(** ** Neighbour counts in closed form *)

Lemma wrap_small (z : Z) : Int64.in_range z -> Int64.wrap z = z.
Proof.
  unfold Int64.in_range, Int64.wrap, Int64.min_signed, Int64.max_signed,
    Int64.modulus.
  intros H. rewrite Z.mod_small; lia.
Qed.

Lemma bit_range (z : Z) : bit z -> (0 <= z <= 1)%Z.
Proof. intros [->| ->]; lia. Qed.

Lemma item_bit (x : ndarray) (idx : list nat) :
  Forall bit (data x) -> bit (item x idx).
Proof.
  intros H. unfold item.
  destruct (nth_in_or_default (ravel (shape x) idx) (data x) 0%Z) as [Hin | ->].
  - rewrite Forall_forall in H. apply H, Hin.
  - left. reflexivity.
Qed.

Lemma zip_with_map {A B C D : Type} (f : B -> C -> D) (g : A -> B) (h : A -> C)
  (l : list A) :
  zip_with f (map g l) (map h l) = map (fun x => f (g x) (h x)) l.
Proof. induction l as [|x l IH]; simpl; congruence. Qed.

Lemma axis_term_range (x : ndarray) (idx : list nat) (i : nat) :
  Forall bit (data x) -> (0 <= axis_term x idx i <= 2)%Z.
Proof.
  intros H. unfold axis_term.
  pose proof (bit_range (item_bit x (roll_source (shape x) idx 1 i) H)).
  pose proof (bit_range (item_bit x (roll_source (shape x) idx (-1) i) H)).
  lia.
Qed.

Lemma sum_over_range (axes : list nat) (f : nat -> Z) :
  (forall i, 0 <= f i <= 2)%Z ->
  (0 <= sum_over axes f <= 2 * Z.of_nat (length axes))%Z.
Proof.
  intros Hf. induction axes as [|i axes IH]; simpl length; simpl sum_over; [lia|].
  specialize (Hf i). lia.
Qed.

Lemma sum_over_le (axes : list nat) (f g : nat -> Z) :
  (forall i, In i axes -> f i <= g i)%Z ->
  (sum_over axes f <= sum_over axes g)%Z.
Proof.
  induction axes as [|i axes IH]; intros H; simpl; [lia|].
  pose proof (H i (or_introl eq_refl)).
  assert (sum_over axes f <= sum_over axes g)%Z by (apply IH; intros; apply H; right; assumption).
  lia.
Qed.

Lemma neighbours_range (x : ndarray) (idx : list nat) :
  Forall bit (data x) -> (0 <= neighbours x idx <= 2 * Z.of_nat (ndim x))%Z.
Proof.
  intros H. unfold neighbours.
  pose proof (sum_over_range (seq 0 (ndim x)) (axis_term x idx)
                (fun i => axis_term_range x idx i H)) as R.
  rewrite length_seq in R. exact R.
Qed.

(** The accumulation loop over the axes, cell by cell: as long as the
    running counts fit the dtype, every pass adds the axis term. *)
Lemma roll_sum_data (x : ndarray) (axes : list nat) :
  Forall bit (data x) ->
  forall (c : list nat -> Z) (k : Z) (w : ndarray),
    data w = map c (indices (shape x)) ->
    (forall idx, 0 <= c idx <= 2 * k)%Z ->
    (2 * (k + Z.of_nat (length axes)) <= Int64.max_signed)%Z ->
    data
      (fold_left
         (fun weight i =>
            np_add weight (np_add (np_roll x 1 i) (np_roll x (-1) i)))
         axes w) =
    map (fun idx => (c idx + sum_over axes (axis_term x idx))%Z)
      (indices (shape x)).
Proof.
  intros Hx. induction axes as [|i axes IH]; intros c k w Hw Hc Hk.
  - simpl. rewrite Hw. apply map_ext. intros idx. lia.
  - simpl fold_left.
    rewrite (IH (fun idx => (c idx + axis_term x idx i)%Z) (k + 1)%Z).
    + apply map_ext. intros idx. simpl. lia.
    + simpl. rewrite Hw, !zip_with_map. apply map_ext. intros idx.
      pose proof (Hc idx).
      pose proof (bit_range (item_bit x (roll_source (shape x) idx 1 i) Hx)).
      pose proof (bit_range (item_bit x (roll_source (shape x) idx (-1) i) Hx)).
      simpl length in Hk. unfold Int64.max_signed in Hk.
      unfold Int64.add, axis_term.
      rewrite (wrap_small (z := item _ _ + item _ _)).
      * apply wrap_small. unfold Int64.in_range, Int64.min_signed,
          Int64.max_signed. lia.
      * unfold Int64.in_range, Int64.min_signed, Int64.max_signed. lia.
    + intros idx. pose proof (Hc idx). pose proof (axis_term_range x idx i Hx).
      lia.
    + simpl length in Hk. lia.
Qed.

Lemma torus_weight_data (a : ndarray) :
  Forall bit (data a) -> dims_fit a ->
  data (torus_weight a) = map (neighbours a) (indices (shape a)).
Proof.
  intros Hb Hd. unfold torus_weight.
  rewrite (@roll_sum_data a (seq 0 (ndim a)) Hb (fun _ => 0%Z) 0%Z).
  - apply map_ext. intros idx. reflexivity.
  - reflexivity.
  - intros; lia.
  - rewrite length_seq. exact Hd.
Qed.

Lemma pad_bits (a : ndarray) :
  Forall bit (data a) -> Forall bit (data (np_pad1 a)).
Proof.
  intros H. unfold np_pad1. simpl. apply Forall_map, Forall_forall.
  intros idx _. destruct (interior (shape a) idx); [apply item_bit, H | left; reflexivity].
Qed.

Lemma pad_ndim (a : ndarray) : ndim (np_pad1 a) = ndim a.
Proof. unfold ndim. simpl. apply length_map. Qed.

Lemma in_bounds_pad (sh idx : list nat) :
  in_bounds sh idx -> in_bounds (map (fun n => n + 2) sh) (map S idx).
Proof.
  intros H. induction H as [|i n idx sh Hi H IH]; simpl; constructor;
    [lia | exact IH].
Qed.

Lemma lattice_weight_data (a : ndarray) :
  Forall bit (data a) -> dims_fit a ->
  data (lattice_weight a) =
  map (fun idx => neighbours (np_pad1 a) (map S idx)) (indices (shape a)).
Proof.
  intros Hb Hd. unfold lattice_weight.
  match goal with |- context [slice_inner ?w] => set (W := w) end.
  assert (HW : shape W = shape (np_pad1 a)).
  { apply roll_sum_shape; simpl; auto. rewrite length_map. apply length_indices. }
  assert (HD : data W = map (neighbours (np_pad1 a)) (indices (shape (np_pad1 a)))).
  { unfold W.
    rewrite (@roll_sum_data (np_pad1 a) (seq 0 (ndim (np_pad1 a)))
               (@pad_bits a Hb) (fun _ => 0%Z) 0%Z).
    - apply map_ext. intros idx. reflexivity.
    - reflexivity.
    - intros; lia.
    - rewrite length_seq, pad_ndim. exact Hd. }
  unfold slice_inner. simpl. rewrite HW. simpl. rewrite pad_unpad.
  apply map_ext_in. intros idx Hin. apply in_indices in Hin.
  change (item W (map S idx)) with
    (nth (ravel (shape W) (map S idx)) (data W) 0%Z).
  rewrite HW, HD.
  apply (item_tabulate (neighbours (np_pad1 a)) (in_bounds_pad Hin)).
Qed.

(** ** The produced sequences *)

Lemma lattice_produces (start : ndarray) (m : Z) :
  wf start ->
  exists n, n <= susceptible (data start) /\
    stops_at (lattice_update m) start n /\
    produces (spread_lattice start m) (trajectory (lattice_update m) start n).
Proof. intros H. apply (loop_produces (lattice_or_step m) H). Qed.

Lemma torus_produces (start : ndarray) (m : Z) :
  wf start ->
  exists n, n <= susceptible (data start) /\
    stops_at (torus_update m) start n /\
    produces (spread_torus start m) (trajectory (torus_update m) start n).
Proof. intros H. apply (loop_produces (torus_or_step m) H). Qed.

Lemma lattice_produced (start : ndarray) (m : Z) (vs : list ndarray) :
  wf start -> produces (spread_lattice start m) vs ->
  exists n, n <= susceptible (data start) /\
    stops_at (lattice_update m) start n /\
    vs = trajectory (lattice_update m) start n.
Proof. intros H. apply (loop_produced (lattice_or_step m) H). Qed.

Lemma torus_produced (start : ndarray) (m : Z) (vs : list ndarray) :
  wf start -> produces (spread_torus start m) vs ->
  exists n, n <= susceptible (data start) /\
    stops_at (torus_update m) start n /\
    vs = trajectory (torus_update m) start n.
Proof. intros H. apply (loop_produced (torus_or_step m) H). Qed.

(** C1.  Both generators produce the initial state first and then exactly
    the successive states of the loop up to the last one that differs from
    its predecessor: the sequence is [start, step start, ..., step^n start]
    where every state before position [n] differs from its successor and
    [step^(n+1) start], equal to [step^n start], is not produced. *)
Theorem produced_sequence_is_distinct_prefix (start : ndarray) (m : Z) :
  wf start ->
  (exists n vs,
      produces (spread_lattice start m) vs /\
      nth_error vs 0 = Some start /\
      vs = trajectory (lattice_update m) start n /\
      length vs = S n /\
      stops_at (lattice_update m) start n) /\
  (exists n vs,
      produces (spread_torus start m) vs /\
      nth_error vs 0 = Some start /\
      vs = trajectory (torus_update m) start n /\
      length vs = S n /\
      stops_at (torus_update m) start n).
Proof.
  intros H. split.
  - destruct (lattice_produces m H) as (n & _ & Hs & Hp).
    exists n, (trajectory (lattice_update m) start n).
    repeat split; try apply Hs; try assumption.
    unfold trajectory. rewrite length_map, length_seq. reflexivity.
  - destruct (torus_produces m H) as (n & _ & Hs & Hp).
    exists n, (trajectory (torus_update m) start n).
    repeat split; try apply Hs; try assumption.
    unfold trajectory. rewrite length_map, length_seq. reflexivity.
Qed.

Lemma produced_sequence_is_distinct_prefix_witness :
  wf centre_seed /\
  (exists n vs,
      produces (spread_lattice centre_seed 1) vs /\
      nth_error vs 0 = Some centre_seed /\
      vs = trajectory (lattice_update 1) centre_seed n /\
      length vs = S n /\
      stops_at (lattice_update 1) centre_seed n) /\
  (exists n vs,
      produces (spread_torus centre_seed 1) vs /\
      nth_error vs 0 = Some centre_seed /\
      vs = trajectory (torus_update 1) centre_seed n /\
      length vs = S n /\
      stops_at (torus_update 1) centre_seed n).
Proof.
  assert (H : wf centre_seed) by reflexivity.
  split; [exact H|].
  exact (@produced_sequence_is_distinct_prefix centre_seed 1 H).
Defined.

(** C2.  In the sequence produced by either generator, a cell that holds 1
    in some state holds 1 in every later state, in particular in the next
    one. *)
Theorem infection_is_monotone
  (start : ndarray) (m : Z) (vs : list ndarray) (i j : nat)
  (s s' : ndarray) (idx : list nat) :
  wf start ->
  produces (spread_lattice start m) vs \/ produces (spread_torus start m) vs ->
  i <= j ->
  nth_error vs i = Some s -> nth_error vs j = Some s' ->
  item s idx = 1%Z -> item s' idx = 1%Z.
Proof.
  intros H Hp Hij Hi Hj Hs.
  destruct Hp as [Hp | Hp].
  - destruct (lattice_produced H Hp) as (n & _ & _ & ->).
    apply nth_error_trajectory in Hi, Hj.
    destruct Hi as [_ ->], Hj as [_ ->].
    replace j with ((j - i) + i) by lia.
    apply (iterate_keeps_infected (lattice_or_step m)); assumption.
  - destruct (torus_produced H Hp) as (n & _ & _ & ->).
    apply nth_error_trajectory in Hi, Hj.
    destruct Hi as [_ ->], Hj as [_ ->].
    replace j with ((j - i) + i) by lia.
    apply (iterate_keeps_infected (torus_or_step m)); assumption.
Qed.

Lemma infection_is_monotone_witness :
  wf centre_seed /\
  produces (spread_lattice centre_seed 1) scenario_A_states /\
  nth_error scenario_A_states 0 = Some centre_seed /\
  nth_error scenario_A_states 2 = Some (array [5] [1; 1; 1; 1; 1]%Z) /\
  item centre_seed [2] = 1%Z /\
  item (array [5] [1; 1; 1; 1; 1]%Z) [2] = 1%Z.
Proof.
  assert (H : wf centre_seed) by reflexivity.
  assert (Hp : produces (spread_lattice centre_seed 1) scenario_A_states).
  { exists (mk_generator (lattice_next 1) (Created centre_seed)), 4.
    split; reflexivity. }
  assert (H0 : nth_error scenario_A_states 0 = Some centre_seed)
    by reflexivity.
  assert (H2 : nth_error scenario_A_states 2 =
               Some (array [5] [1; 1; 1; 1; 1]%Z)) by reflexivity.
  assert (Hi : item centre_seed [2] = 1%Z) by reflexivity.
  split; [exact H|]. split; [exact Hp|]. split; [exact H0|].
  split; [exact H2|]. split; [exact Hi|].
  exact (@infection_is_monotone centre_seed 1 scenario_A_states 0 2
           centre_seed (array [5] [1; 1; 1; 1; 1]%Z) [2]
           H (or_introl Hp) (Nat.le_0_l 2) H0 H2 Hi).
Defined.

(** C3.  Both generators stop: each produces a finite sequence, and any
    sequence it produces has at most [size start + 1] states. *)
Theorem sequence_length_bounded (start : ndarray) (m : Z) :
  wf start ->
  (exists vs, produces (spread_lattice start m) vs) /\
  (exists vs, produces (spread_torus start m) vs) /\
  (forall vs,
      produces (spread_lattice start m) vs \/
      produces (spread_torus start m) vs ->
      length vs <= size start + 1).
Proof.
  intros H.
  pose proof (susceptible_le_length (data start)) as Hle.
  unfold wf in H. split; [|split].
  - destruct (lattice_produces m H) as (n & _ & _ & Hp). eauto.
  - destruct (torus_produces m H) as (n & _ & _ & Hp). eauto.
  - intros vs [Hp | Hp].
    + destruct (lattice_produced H Hp) as (n & Hn & _ & ->).
      unfold trajectory. rewrite length_map, length_seq. lia.
    + destruct (torus_produced H Hp) as (n & Hn & _ & ->).
      unfold trajectory. rewrite length_map, length_seq. lia.
Qed.

Lemma sequence_length_bounded_witness :
  wf diagonal /\
  (exists vs, produces (spread_lattice diagonal 2) vs) /\
  (exists vs, produces (spread_torus diagonal 2) vs) /\
  (forall vs,
      produces (spread_lattice diagonal 2) vs \/
      produces (spread_torus diagonal 2) vs ->
      length vs <= size diagonal + 1).
Proof.
  assert (H : wf diagonal) by reflexivity.
  split; [exact H|].
  exact (@sequence_length_bounded diagonal 2 H).
Defined.

(** C7.  The last state produced by either generator is a fixpoint of that
    generator's update: one more pass through the loop body leaves it
    unchanged. *)
Theorem last_state_is_fixpoint (start : ndarray) (m : Z) (vs : list ndarray) :
  wf start ->
  (produces (spread_lattice start m) vs ->
   lattice_update m (last vs start) = last vs start) /\
  (produces (spread_torus start m) vs ->
   torus_update m (last vs start) = last vs start).
Proof.
  intros H. split; intros Hp.
  - destruct (lattice_produced H Hp) as (n & _ & [_ He] & ->).
    rewrite last_trajectory. exact He.
  - destruct (torus_produced H Hp) as (n & _ & [_ He] & ->).
    rewrite last_trajectory. exact He.
Qed.

Lemma last_state_is_fixpoint_witness :
  wf centre_seed /\
  produces (spread_lattice centre_seed 1) scenario_A_states /\
  lattice_update 1 (last scenario_A_states centre_seed) =
    last scenario_A_states centre_seed /\
  produces (spread_torus centre_seed 1) scenario_A_states /\
  torus_update 1 (last scenario_A_states centre_seed) =
    last scenario_A_states centre_seed.
Proof.
  assert (H : wf centre_seed) by reflexivity.
  assert (HL : produces (spread_lattice centre_seed 1) scenario_A_states).
  { exists (mk_generator (lattice_next 1) (Created centre_seed)), 4.
    split; reflexivity. }
  assert (HT : produces (spread_torus centre_seed 1) scenario_A_states).
  { exists (mk_generator (torus_next 1) (Created centre_seed)), 4.
    split; reflexivity. }
  split; [exact H|]. split; [exact HL|]. split.
  - exact (proj1 (@last_state_is_fixpoint centre_seed 1 scenario_A_states H) HL).
  - split; [exact HT|].
    exact (proj2 (@last_state_is_fixpoint centre_seed 1 scenario_A_states H) HT).
Defined.

(** C8.  Scenario A: on the one-dimensional grid [0,0,1,0,0] with threshold
    1, [spread_lattice] produces [0,0,1,0,0], [0,1,1,1,0], [1,1,1,1,1] and
    stops; the state computed next equals [1,1,1,1,1] and is not produced. *)
Theorem scenario_A :
  produces (spread_lattice (array [5] [0; 0; 1; 0; 0]%Z) 1)
    [array [5] [0; 0; 1; 0; 0]%Z;
     array [5] [0; 1; 1; 1; 0]%Z;
     array [5] [1; 1; 1; 1; 1]%Z] /\
  lattice_update 1 (array [5] [1; 1; 1; 1; 1]%Z) = array [5] [1; 1; 1; 1; 1]%Z.
Proof.
  split; [|reflexivity].
  exists (mk_generator (lattice_next 1) (Created (array [5] [0; 0; 1; 0; 0]%Z))), 4.
  split; reflexivity.
Qed.

(** ** Reading the counts cell by cell *)

Lemma item_map_indices (w : ndarray) (sh : list nat) (f : list nat -> Z)
  (idx : list nat) :
  shape w = sh -> data w = map f (indices sh) -> in_bounds sh idx ->
  item w idx = f idx.
Proof.
  intros Hs Hd H. unfold item. rewrite Hs, Hd.
  apply (item_tabulate f H).
Qed.

Lemma torus_weight_item (a : ndarray) (idx : list nat) :
  Forall bit (data a) -> dims_fit a -> in_bounds (shape a) idx ->
  item (torus_weight a) idx = neighbours a idx.
Proof.
  intros Hb Hd H. apply item_map_indices with (sh := shape a).
  - apply torus_weight_shape.
  - apply torus_weight_data; assumption.
  - exact H.
Qed.

Lemma roll_source_in_bounds (sh idx : list nat) (k : Z) (axis : nat) :
  in_bounds sh idx -> in_bounds sh (roll_source sh idx k axis).
Proof.
  intros H. revert axis.
  induction H as [|i n idx sh Hi H IH]; intros axis; simpl; [constructor|].
  destruct axis as [|axis].
  - constructor; [|exact H].
    pose proof (Z.mod_pos_bound (Z.of_nat i - k) (Z.of_nat n) ltac:(lia)). lia.
  - constructor; [exact Hi | apply IH].
Qed.


Lemma map_pred_S (idx : list nat) : map pred (map S idx) = idx.
Proof.
  rewrite map_map. rewrite <- (map_id idx) at 2. apply map_ext. reflexivity.
Qed.

Lemma interior_S (sh idx : list nat) :
  in_bounds sh idx -> interior sh (map S idx) = true.
Proof.
  intros H. induction H as [|i n idx sh Hi H IH]; [reflexivity|].
  cbn [interior map]. rewrite IH, andb_true_r.
  apply andb_true_iff. split; apply Nat.leb_le; lia.
Qed.

(** Inside the padded array a step of one cell from an original cell either
    lands on the cell the cyclic roll of the unpadded array reads, or leaves
    the original area. *)
Lemma pad_roll_source (sh idx : list nat) (k : Z) (axis : nat) :
  in_bounds sh idx -> (k = 1 \/ k = -1)%Z ->
  interior sh (roll_source (map (fun n => n + 2) sh) (map S idx) k axis) = true ->
  map pred (roll_source (map (fun n => n + 2) sh) (map S idx) k axis) =
  roll_source sh idx k axis.
Proof.
  intros H Hk. revert axis.
  induction H as [|i n idx sh Hi H IH]; intros axis; [reflexivity|].
  destruct axis as [|axis]; cbn [roll_source map interior].
  - rewrite map_pred_S. intros Hint.
    apply andb_true_iff in Hint. destruct Hint as [Hint _].
    apply andb_true_iff in Hint. destruct Hint as [H1 H2].
    apply Nat.leb_le in H1, H2. f_equal.
    destruct Hk as [-> | ->].
    + rewrite Z.mod_small in H1, H2 |- * by lia.
      rewrite Z.mod_small by lia. lia.
    + rewrite Z.mod_small in H1, H2 |- * by lia.
      rewrite Z.mod_small by lia. lia.
  - intros Hint. apply andb_true_iff in Hint. destruct Hint as [_ Hint].
    cbn [pred]. f_equal. apply IH. exact Hint.
Qed.

Lemma pad_item (a : ndarray) (idx : list nat) :
  in_bounds (map (fun n => n + 2) (shape a)) idx ->
  item (np_pad1 a) idx =
  if interior (shape a) idx then item a (map pred idx) else 0%Z.
Proof. intros H. unfold np_pad1. rewrite item_tabulate by exact H. reflexivity. Qed.

(** ** Cellwise order *)

Lemma Forall2_le_nth (xs ys : list Z) (j : nat) :
  Forall2 Z.le xs ys -> (nth j xs 0 <= nth j ys 0)%Z.
Proof.
  intros H. revert j. induction H as [|x y xs ys Hxy H IH]; intros [|j];
    simpl; try lia; auto.
Qed.

Lemma below_item (x y : ndarray) (idx : list nat) :
  below x y -> (item x idx <= item y idx)%Z.
Proof.
  intros [Hs Hd]. unfold item. rewrite Hs. apply Forall2_le_nth, Hd.
Qed.

Lemma below_refl (x : ndarray) : below x x.
Proof.
  split; [reflexivity|]. induction (data x); constructor; [lia | assumption].
Qed.

Lemma Forall2_map_same {A : Type} (R : Z -> Z -> Prop) (f g : A -> Z)
  (l : list A) :
  (forall x, In x l -> R (f x) (g x)) -> Forall2 R (map f l) (map g l).
Proof.
  induction l as [|x l IH]; intros H; simpl; constructor.
  - apply H. left. reflexivity.
  - apply IH. intros y Hy. apply H. right. exact Hy.
Qed.

Lemma axis_term_below (x y : ndarray) (idx : list nat) (i : nat) :
  below x y -> (axis_term x idx i <= axis_term y idx i)%Z.
Proof.
  intros H. unfold axis_term. rewrite (proj1 H).
  pose proof (below_item (roll_source (shape y) idx 1 i) H).
  pose proof (below_item (roll_source (shape y) idx (-1) i) H). lia.
Qed.

Lemma neighbours_below (x y : ndarray) (idx : list nat) :
  below x y -> (neighbours x idx <= neighbours y idx)%Z.
Proof.
  intros H. unfold neighbours, ndim. rewrite (proj1 H).
  apply sum_over_le. intros i _. apply axis_term_below, H.
Qed.

Lemma pad_below (a b : ndarray) : below a b -> below (np_pad1 a) (np_pad1 b).
Proof.
  intros H. pose proof H as [Hs _]. unfold below, np_pad1. simpl.
  rewrite Hs. split; [reflexivity|].
  apply Forall2_map_same. intros idx _.
  destruct (interior (shape b) idx); [apply below_item, H | lia].
Qed.

(** The bounded count of a cell never exceeds the periodic count of the same
    cell in a grid that is at least as infected. *)
Lemma lattice_term_le_torus (a b : ndarray) (idx : list nat) (i : nat) :
  below a b -> Forall bit (data b) -> in_bounds (shape a) idx ->
  (axis_term (np_pad1 a) (map S idx) i <= axis_term b idx i)%Z.
Proof.
  intros Hab Hb H. unfold axis_term.
  assert (E : forall k, (k = 1 \/ k = -1)%Z ->
    (item (np_pad1 a)
       (roll_source (shape (np_pad1 a)) (map S idx) k i) <=
     item b (roll_source (shape b) idx k i))%Z).
  { intros k Hk. simpl shape.
    rewrite pad_item by (apply roll_source_in_bounds, in_bounds_pad, H).
    destruct (interior _ _) eqn:Hint.
    - rewrite (pad_roll_source i H Hk Hint). rewrite <- (proj1 Hab).
      apply below_item, Hab.
    - apply (bit_range (item_bit b _ Hb)). }
  pose proof (E 1%Z (or_introl eq_refl)).
  pose proof (E (-1)%Z (or_intror eq_refl)). lia.
Qed.

Lemma lattice_neighbours_le_torus (a b : ndarray) (idx : list nat) :
  below a b -> Forall bit (data b) -> in_bounds (shape a) idx ->
  (neighbours (np_pad1 a) (map S idx) <= neighbours b idx)%Z.
Proof.
  intros Hab Hb H. unfold neighbours. rewrite pad_ndim.
  unfold ndim. rewrite (proj1 Hab).
  apply sum_over_le. intros i _. apply lattice_term_le_torus; assumption.
Qed.

(** ** Comparing two runs *)

Lemma threshold_or_le (m1 m2 wa wb va vb : Z) :
  (m1 <= m2)%Z -> (wa <= wb)%Z -> bit va -> bit vb -> (va <= vb)%Z ->
  (Z.lor (if (m2 <=? wa)%Z then 1 else 0) va <=
   Z.lor (if (m1 <=? wb)%Z then 1 else 0) vb)%Z.
Proof.
  intros Hm Hw Ha Hb Hv.
  destruct (Z.leb_spec m2 wa), (Z.leb_spec m1 wb);
    destruct Ha as [->| ->], Hb as [->| ->]; simpl; lia.
Qed.

Lemma threshold_or_below (m1 m2 : Z) (wa wb da db : list Z) :
  (m1 <= m2)%Z -> Forall2 Z.le wa wb ->
  Forall bit da -> Forall bit db -> Forall2 Z.le da db ->
  Forall2 Z.le
    (zip_with Z.lor (map (fun w => if (m2 <=? w)%Z then 1%Z else 0%Z) wa) da)
    (zip_with Z.lor (map (fun w => if (m1 <=? w)%Z then 1%Z else 0%Z) wb) db).
Proof.
  intros Hm Hw. revert da db.
  induction Hw as [|x y wa wb Hxy Hw IH]; intros da db Ha Hb Hd; simpl;
    [constructor|].
  destruct Hd as [|u v da db Huv Hd]; [constructor|].
  inversion Ha; inversion Hb; subst.
  constructor; [apply threshold_or_le; assumption | apply IH; assumption].
Qed.

Lemma update_below (m1 m2 : Z) (wa wb a b : ndarray) :
  (m1 <= m2)%Z -> shape wa = shape wb -> Forall2 Z.le (data wa) (data wb) ->
  Forall bit (data a) -> Forall bit (data b) -> below a b ->
  below (np_or (np_where_ge wa m2) a) (np_or (np_where_ge wb m1) b).
Proof.
  intros Hm Hs Hw Ha Hb [_ Hd]. split; [exact Hs|]. simpl.
  apply threshold_or_below; assumption.
Qed.

Lemma torus_weight_below (a b : ndarray) :
  Forall bit (data a) -> Forall bit (data b) -> dims_fit a -> below a b ->
  Forall2 Z.le (data (torus_weight a)) (data (torus_weight b)).
Proof.
  intros Ha Hb Hd Hab.
  assert (Hd' : dims_fit b).
  { unfold dims_fit, ndim in *. rewrite <- (proj1 Hab). exact Hd. }
  rewrite !torus_weight_data by assumption. rewrite (proj1 Hab).
  apply Forall2_map_same. intros idx _. apply neighbours_below, Hab.
Qed.

Lemma lattice_weight_below (a b : ndarray) :
  Forall bit (data a) -> Forall bit (data b) -> dims_fit a -> below a b ->
  Forall2 Z.le (data (lattice_weight a)) (data (lattice_weight b)).
Proof.
  intros Ha Hb Hd Hab.
  assert (Hd' : dims_fit b).
  { unfold dims_fit, ndim in *. rewrite <- (proj1 Hab). exact Hd. }
  rewrite !lattice_weight_data by assumption. rewrite (proj1 Hab).
  apply Forall2_map_same. intros idx _. apply neighbours_below, pad_below, Hab.
Qed.

Lemma lattice_weight_below_torus (a b : ndarray) :
  Forall bit (data a) -> Forall bit (data b) -> dims_fit a -> below a b ->
  Forall2 Z.le (data (lattice_weight a)) (data (torus_weight b)).
Proof.
  intros Ha Hb Hd Hab.
  assert (Hd' : dims_fit b).
  { unfold dims_fit, ndim in *. rewrite <- (proj1 Hab). exact Hd. }
  rewrite lattice_weight_data, torus_weight_data by assumption.
  rewrite <- (proj1 Hab).
  apply Forall2_map_same. intros idx Hin.
  apply lattice_neighbours_le_torus; [assumption | assumption |].
  apply in_indices, Hin.
Qed.

Lemma weight_shapes_agree (wa wb : ndarray -> ndarray) (a b : ndarray) :
  (forall x, shape (wa x) = shape x /\ length (data (wa x)) = size x) ->
  (forall x, shape (wb x) = shape x /\ length (data (wb x)) = size x) ->
  below a b -> shape (wa a) = shape (wb b).
Proof.
  intros Ha Hb Hab. rewrite (proj1 (Ha a)), (proj1 (Hb b)). apply Hab.
Qed.

(** Two runs of threshold updates, the second one with weights that dominate
    and a threshold that is not larger, stay ordered cell by cell. *)
Section TwoRuns.

Variables (wa wb : ndarray -> ndarray) (m1 m2 : Z).
Hypothesis wa_shape :
  forall x, shape (wa x) = shape x /\ length (data (wa x)) = size x.
Hypothesis wb_shape :
  forall x, shape (wb x) = shape x /\ length (data (wb x)) = size x.
Hypothesis weights_ordered :
  forall a b, Forall bit (data a) -> Forall bit (data b) -> dims_fit a ->
    below a b -> Forall2 Z.le (data (wa a)) (data (wb b)).
Hypothesis thresholds_ordered : (m1 <= m2)%Z.

Let step_a (x : ndarray) : ndarray := np_or (np_where_ge (wa x) m2) x.
Let step_b (x : ndarray) : ndarray := np_or (np_where_ge (wb x) m1) x.

Lemma iterates_ordered (start : ndarray) (k : nat) :
  grid start -> dims_fit start ->
  below (iterate step_a k start) (iterate step_b k start).
Proof.
  intros Hg Hd.
  pose proof (@threshold_or_step wa m2 wa_shape) as Oa.
  pose proof (@threshold_or_step wb m1 wb_shape) as Ob.
  induction k as [|k IH]; [apply below_refl|].
  change (below (step_a (iterate step_a k start))
                (step_b (iterate step_b k start))).
  pose proof (iterate_grid Oa k Hg) as [Wa Ba].
  pose proof (iterate_grid Ob k Hg) as [Wb Bb].
  fold step_a in Ba, Wa. fold step_b in Bb, Wb.
  apply update_below; try assumption.
  - apply weight_shapes_agree; assumption.
  - apply weights_ordered; try assumption.
    pose proof (iterate_shape Oa k (proj1 Hg)) as E. fold step_a in E.
    unfold dims_fit, ndim in *. rewrite E. exact Hd.
Qed.

Lemma iterates_infected (start : ndarray) (k : nat) (idx : list nat) :
  grid start -> dims_fit start ->
  item (iterate step_a k start) idx = 1%Z ->
  item (iterate step_b k start) idx = 1%Z.
Proof.
  intros Hg Hd H1.
  pose proof (below_item idx (iterates_ordered k Hg Hd)) as Hle.
  pose proof (@threshold_or_step wb m1 wb_shape) as Ob.
  pose proof (iterate_grid Ob k Hg) as [_ Bb]. fold step_b in Bb.
  pose proof (bit_range (item_bit _ idx Bb)). lia.
Qed.

End TwoRuns.

(** Closes [grid a] for an array literal [a]. *)
Ltac concrete_grid :=
  split;
  [ reflexivity
  | repeat (apply Forall_cons; [unfold bit; auto |]); apply Forall_nil ].

(** C9.  On a 0/1 grid the periodic neighbour count of every cell is at
    least its bounded count, and so, with the same threshold, after any
    number [k] of updates every cell infected under the bounded update is
    infected under the periodic update. *)
Theorem torus_dominates_lattice
  (start : ndarray) (m : Z) (k : nat) (idx : list nat) :
  grid start -> dims_fit start ->
  (item (lattice_weight start) idx <= item (torus_weight start) idx)%Z /\
  (item (iterate (lattice_update m) k start) idx = 1%Z ->
   item (iterate (torus_update m) k start) idx = 1%Z).
Proof.
  intros Hg Hd. split.
  - apply below_item. split.
    + rewrite (proj1 (lattice_weight_shape start)).
      symmetry. apply torus_weight_shape.
    + apply lattice_weight_below_torus; try apply Hg; try assumption.
      apply below_refl.
  - exact (@iterates_infected lattice_weight torus_weight m m
             lattice_weight_shape torus_weight_shape
             lattice_weight_below_torus (Z.le_refl m) start k idx Hg Hd).
Qed.

Lemma torus_dominates_lattice_witness :
  grid corner_seed /\ dims_fit corner_seed /\
  Z.le (item (lattice_weight corner_seed) [4])
       (item (torus_weight corner_seed) [4]) /\
  item (iterate (lattice_update 1) 1 corner_seed) [1] = 1%Z /\
  item (iterate (torus_update 1) 1 corner_seed) [1] = 1%Z.
Proof.
  assert (Hg : grid corner_seed) by concrete_grid.
  assert (Hd : dims_fit corner_seed) by (vm_compute; discriminate).
  assert (H1 : item (iterate (lattice_update 1) 1 corner_seed) [1] = 1%Z)
    by reflexivity.
  split; [exact Hg|]. split; [exact Hd|]. split.
  - exact (proj1 (@torus_dominates_lattice corner_seed 1 1 [4] Hg Hd)).
  - split; [exact H1|].
    exact (proj2 (@torus_dominates_lattice corner_seed 1 1 [1] Hg Hd) H1).
Defined.

(** C10.  On the same 0/1 grid, for thresholds [m1 <= m2] and any number [k]
    of updates, every cell infected with threshold [m2] is infected with
    threshold [m1], under the bounded and under the periodic update. *)
Theorem spread_antitone_in_threshold
  (start : ndarray) (m1 m2 : Z) (k : nat) (idx : list nat) :
  grid start -> dims_fit start -> (m1 <= m2)%Z ->
  (item (iterate (lattice_update m2) k start) idx = 1%Z ->
   item (iterate (lattice_update m1) k start) idx = 1%Z) /\
  (item (iterate (torus_update m2) k start) idx = 1%Z ->
   item (iterate (torus_update m1) k start) idx = 1%Z).
Proof.
  intros Hg Hd Hm. split.
  - exact (@iterates_infected lattice_weight lattice_weight m1 m2
             lattice_weight_shape lattice_weight_shape
             lattice_weight_below Hm start k idx Hg Hd).
  - exact (@iterates_infected torus_weight torus_weight m1 m2
             torus_weight_shape torus_weight_shape
             torus_weight_below Hm start k idx Hg Hd).
Qed.

Lemma spread_antitone_in_threshold_witness :
  grid diagonal /\ dims_fit diagonal /\ (1 <= 2)%Z /\
  item (iterate (lattice_update 2) 1 diagonal) [0; 1] = 1%Z /\
  item (iterate (lattice_update 1) 1 diagonal) [0; 1] = 1%Z /\
  item (iterate (torus_update 2) 1 diagonal) [0; 1] = 1%Z /\
  item (iterate (torus_update 1) 1 diagonal) [0; 1] = 1%Z.
Proof.
  assert (Hg : grid diagonal) by concrete_grid.
  assert (Hd : dims_fit diagonal) by (vm_compute; discriminate).
  assert (Hm : (1 <= 2)%Z) by lia.
  assert (HL : item (iterate (lattice_update 2) 1 diagonal) [0; 1] = 1%Z)
    by reflexivity.
  assert (HT : item (iterate (torus_update 2) 1 diagonal) [0; 1] = 1%Z)
    by reflexivity.
  split; [exact Hg|]. split; [exact Hd|]. split; [exact Hm|].
  split; [exact HL|]. split.
  - exact (proj1 (@spread_antitone_in_threshold diagonal 1 2 1 [0; 1]
                    Hg Hd Hm) HL).
  - split; [exact HT|].
    exact (proj2 (@spread_antitone_in_threshold diagonal 1 2 1 [0; 1]
                    Hg Hd Hm) HT).
Defined.

(** ** Thresholds that every count reaches *)

Lemma or_ones {A : Type} (I : list A) (l : list Z) :
  length l = length I -> Forall bit l ->
  zip_with Z.lor (map (fun _ => 1%Z) I) l = map (fun _ => 1%Z) I.
Proof.
  revert l; induction I as [|i I IH]; intros [|v l] Hl Hb; simpl in *;
    try discriminate; [reflexivity|].
  inversion Hb as [|? ? [->| ->] Hb']; subst; rewrite IH by (auto; lia);
    reflexivity.
Qed.

Lemma all_infected_grid (sh : list nat) : grid (all_infected sh).
Proof.
  split; [apply tabulate_wf|]. unfold all_infected. simpl.
  apply Forall_map, Forall_forall. intros idx _. right. reflexivity.
Qed.

Lemma torus_update_nonpositive (a : ndarray) (m : Z) :
  grid a -> dims_fit a -> (m <= 0)%Z ->
  torus_update m a = all_infected (shape a).
Proof.
  intros [Hw Hb] Hd Hm. apply ndarray_eq.
  - unfold torus_update, np_or, np_where_ge. cbn [shape].
    apply (proj1 (torus_weight_shape a)).
  - unfold torus_update, np_or, np_where_ge. cbn [data].
    rewrite torus_weight_data by assumption. rewrite map_map.
    rewrite (map_ext _ (fun _ => 1%Z)).
    + apply or_ones; [rewrite length_indices; exact Hw | exact Hb].
    + intros idx. pose proof (neighbours_range a idx Hb).
      destruct (Z.leb_spec m (neighbours a idx)); [reflexivity | lia].
Qed.

Lemma lattice_update_nonpositive (a : ndarray) (m : Z) :
  grid a -> dims_fit a -> (m <= 0)%Z ->
  lattice_update m a = all_infected (shape a).
Proof.
  intros [Hw Hb] Hd Hm. apply ndarray_eq.
  - unfold lattice_update, np_or, np_where_ge. cbn [shape].
    apply (proj1 (lattice_weight_shape a)).
  - unfold lattice_update, np_or, np_where_ge. cbn [data].
    rewrite lattice_weight_data by assumption. rewrite map_map.
    rewrite (map_ext _ (fun _ => 1%Z)).
    + apply or_ones; [rewrite length_indices; exact Hw | exact Hb].
    + intros idx.
      pose proof (neighbours_range (np_pad1 a) (map S idx) (@pad_bits a Hb)).
      destruct (Z.leb_spec m (neighbours (np_pad1 a) (map S idx)));
        [reflexivity | lia].
Qed.

Section ShortRuns.

Variable step : ndarray -> ndarray.
Hypothesis step_or : or_step step.

Let gen (f : frame) : generator := mk_generator (loop_next step) f.

Lemma next_created (a : ndarray) :
  next (gen (Created a)) = (Some a, gen (Suspended a)).
Proof. unfold next, gen. cbn. rewrite np_copy_id. reflexivity. Qed.

Lemma next_suspended_stop (a : ndarray) :
  wf a -> step a = a -> next (gen (Suspended a)) = (None, gen Finished).
Proof.
  intros H E. unfold next, gen. cbn [gi_code gi_frame loop_next].
  rewrite (proj2 (converged_iff step_or H) E). reflexivity.
Qed.

Lemma next_suspended_go (a : ndarray) :
  wf a -> step a <> a ->
  next (gen (Suspended a)) = (Some (step a), gen (Suspended (step a))).
Proof.
  intros H N. unfold next, gen. cbn [gi_code gi_frame loop_next].
  destruct (np_all (np_equal (step a) (np_copy a))) eqn:T; [|reflexivity].
  apply (converged_iff step_or H) in T. contradiction.
Qed.

Lemma loop_fixed (a : ndarray) :
  wf a -> step a = a -> produces (Returns (gen (Created a))) [a].
Proof.
  intros H E. exists (gen (Created a)), 2.
  split; [reflexivity|]. cbn [drain].
  rewrite next_created, (next_suspended_stop H E). reflexivity.
Qed.

Lemma loop_once (a : ndarray) :
  wf a -> step a <> a -> step (step a) = step a ->
  produces (Returns (gen (Created a))) [a; step a].
Proof.
  intros H N E. exists (gen (Created a)), 3.
  split; [reflexivity|]. cbn [drain].
  rewrite next_created, (next_suspended_go H N),
    (next_suspended_stop (step_wf step_or H) E). reflexivity.
Qed.

End ShortRuns.

(** With a threshold that is zero or negative every count reaches it: a 0/1
    grid becomes all-infected in one update. *)
Lemma nonpositive_threshold_run (start : ndarray) (m : Z) :
  grid start -> dims_fit start -> (m <= 0)%Z ->
  (start = all_infected (shape start) ->
   produces (spread_lattice start m) [start] /\
   produces (spread_torus start m) [start]) /\
  (start <> all_infected (shape start) ->
   produces (spread_lattice start m) [start; all_infected (shape start)] /\
   produces (spread_torus start m) [start; all_infected (shape start)]).
Proof.
  intros Hg Hd Hm.
  pose proof (lattice_update_nonpositive Hg Hd Hm) as EL.
  pose proof (torus_update_nonpositive Hg Hd Hm) as ET.
  assert (Hd' : dims_fit (all_infected (shape start))) by exact Hd.
  pose proof (lattice_update_nonpositive
                (all_infected_grid (shape start)) Hd' Hm) as EL'.
  pose proof (torus_update_nonpositive
                (all_infected_grid (shape start)) Hd' Hm) as ET'.
  simpl shape in EL', ET'.
  split; intros E.
  - split.
    + apply (loop_fixed (lattice_or_step m) (proj1 Hg)). congruence.
    + apply (loop_fixed (torus_or_step m) (proj1 Hg)). congruence.
  - split.
    + rewrite <- EL.
      apply (loop_once (lattice_or_step m) (proj1 Hg)); congruence.
    + rewrite <- ET.
      apply (loop_once (torus_or_step m) (proj1 Hg)); congruence.
Qed.

(** C5.  With threshold 0 on a 0/1 grid, under either boundary policy: a
    grid that is already all-infected gives a sequence of one state, and
    any other grid gives exactly the initial state followed by the
    all-infected state. *)
Theorem zero_threshold_sequence (start : ndarray) :
  grid start -> dims_fit start ->
  (start = all_infected (shape start) ->
   produces (spread_lattice start 0) [start] /\
   produces (spread_torus start 0) [start]) /\
  (start <> all_infected (shape start) ->
   produces (spread_lattice start 0) [start; all_infected (shape start)] /\
   produces (spread_torus start 0) [start; all_infected (shape start)]).
Proof.
  intros Hg Hd. apply nonpositive_threshold_run; [assumption | assumption | lia].
Qed.

Lemma zero_threshold_sequence_witness :
  grid centre_seed /\ dims_fit centre_seed /\
  produces (spread_lattice centre_seed 0)
    [centre_seed; all_infected (shape centre_seed)] /\
  produces (spread_torus centre_seed 0)
    [centre_seed; all_infected (shape centre_seed)].
Proof.
  assert (Hg : grid centre_seed) by concrete_grid.
  assert (Hd : dims_fit centre_seed) by (vm_compute; discriminate).
  split; [exact Hg|]. split; [exact Hd|].
  apply (proj2 (@zero_threshold_sequence centre_seed Hg Hd)).
  vm_compute. discriminate.
Defined.

(** ** Axes of length one *)




(** *** The same sums on a bool array *)














(** ** Input that is not validated *)






(** * Further properties of the two generators *)

(** ** What every produced state looks like *)

Lemma in_trajectory (step : ndarray -> ndarray) (a s : ndarray) (n : nat) :
  In s (trajectory step a n) -> exists k, k <= n /\ s = iterate step k a.
Proof.
  unfold trajectory. intros H. apply in_map_iff in H.
  destruct H as (k & <- & Hk). apply in_seq in Hk. exists k. split; [lia|].
  reflexivity.
Qed.

(** X1.  Every state produced by either generator is a well-formed array of
    the shape of the initial one, and it holds only 0 and 1 when the initial
    array does. *)
Theorem produced_states_keep_shape
  (start : ndarray) (m : Z) (vs : list ndarray) (s : ndarray) :
  wf start ->
  produces (spread_lattice start m) vs \/ produces (spread_torus start m) vs ->
  In s vs ->
  shape s = shape start /\ wf s /\
  (Forall bit (data start) -> Forall bit (data s)).
Proof.
  intros H Hp Hs. destruct Hp as [Hp | Hp].
  - destruct (lattice_produced H Hp) as (n & _ & _ & ->).
    apply in_trajectory in Hs. destruct Hs as (k & _ & ->).
    split; [apply (iterate_shape (lattice_or_step m) k H)|].
    split; [apply (iterate_wf (lattice_or_step m) k H)|].
    intros Hb. apply (iterate_grid (lattice_or_step m) k (conj H Hb)).
  - destruct (torus_produced H Hp) as (n & _ & _ & ->).
    apply in_trajectory in Hs. destruct Hs as (k & _ & ->).
    split; [apply (iterate_shape (torus_or_step m) k H)|].
    split; [apply (iterate_wf (torus_or_step m) k H)|].
    intros Hb. apply (iterate_grid (torus_or_step m) k (conj H Hb)).
Qed.

Lemma produced_states_keep_shape_witness :
  wf centre_seed /\
  produces (spread_lattice centre_seed 1) scenario_A_states /\
  In (array [5] [0; 1; 1; 1; 0]%Z) scenario_A_states /\
  shape (array [5] [0; 1; 1; 1; 0]%Z) = shape centre_seed /\
  wf (array [5] [0; 1; 1; 1; 0]%Z) /\
  (Forall bit (data centre_seed) ->
   Forall bit (data (array [5] [0; 1; 1; 1; 0]%Z))).
Proof.
  assert (H : wf centre_seed) by reflexivity.
  assert (Hp : produces (spread_lattice centre_seed 1) scenario_A_states).
  { exists (mk_generator (lattice_next 1) (Created centre_seed)), 4.
    split; reflexivity. }
  assert (Hs : In (array [5] [0; 1; 1; 1; 0]%Z) scenario_A_states)
    by (right; left; reflexivity).
  split; [exact H|]. split; [exact Hp|]. split; [exact Hs|].
  exact (@produced_states_keep_shape centre_seed 1 scenario_A_states
           (array [5] [0; 1; 1; 1; 0]%Z) H (or_introl Hp) Hs).
Defined.

(** ** Counting infected cells *)

Lemma count_split (l : list Z) :
  Forall bit l ->
  susceptible l + length (filter (Z.eqb 1) l) = length l.
Proof.
  unfold susceptible. induction 1 as [|v l Hv Hl IH]; [reflexivity|].
  destruct Hv as [-> | ->]; simpl; lia.
Qed.

Section Counting.

Variable step : ndarray -> ndarray.
Hypothesis step_or : or_step step.

Lemma step_infected_count (a : ndarray) :
  grid a -> step a <> a -> infected_count a < infected_count (step a).
Proof.
  intros Hg N. pose proof (step_grid step_or Hg) as Hg'.
  pose proof (step_susceptible step_or (proj1 Hg) N) as Hlt.
  pose proof (count_split (proj2 Hg)) as C.
  pose proof (count_split (proj2 Hg')) as C'.
  assert (L : length (data (step a)) = length (data a)).
  { destruct Hg as [W _], Hg' as [W' _]. unfold wf, size in *.
    rewrite W, W', (step_shape step_or W). reflexivity. }
  unfold infected_count. lia.
Qed.

Lemma trajectory_infected_count (a s s' : ndarray) (n i : nat) :
  grid a -> stops_at step a n ->
  nth_error (trajectory step a n) i = Some s ->
  nth_error (trajectory step a n) (S i) = Some s' ->
  infected_count s < infected_count s'.
Proof.
  intros Hg [Hd _] Hi Hi'.
  apply nth_error_trajectory in Hi, Hi'.
  destruct Hi as [_ ->], Hi' as [Hn ->].
  change (iterate step (S i) a) with (step (iterate step i a)).
  apply step_infected_count; [apply (iterate_grid step_or i Hg)|].
  apply Hd. lia.
Qed.

End Counting.

(** X2.  Along the sequence produced from a 0/1 grid by either generator,
    each state has strictly more infected cells than the state before it. *)
Theorem infected_count_strictly_grows
  (start : ndarray) (m : Z) (vs : list ndarray) (i : nat) (s s' : ndarray) :
  grid start ->
  produces (spread_lattice start m) vs \/ produces (spread_torus start m) vs ->
  nth_error vs i = Some s -> nth_error vs (S i) = Some s' ->
  infected_count s < infected_count s'.
Proof.
  intros Hg Hp Hi Hi'. destruct Hp as [Hp | Hp].
  - destruct (lattice_produced (proj1 Hg) Hp) as (n & _ & Hs & ->).
    exact (trajectory_infected_count (lattice_or_step m) i Hg Hs Hi Hi').
  - destruct (torus_produced (proj1 Hg) Hp) as (n & _ & Hs & ->).
    exact (trajectory_infected_count (torus_or_step m) i Hg Hs Hi Hi').
Qed.

Lemma infected_count_strictly_grows_witness :
  grid centre_seed /\
  produces (spread_lattice centre_seed 1) scenario_A_states /\
  nth_error scenario_A_states 0 = Some centre_seed /\
  nth_error scenario_A_states 1 = Some (array [5] [0; 1; 1; 1; 0]%Z) /\
  infected_count centre_seed < infected_count (array [5] [0; 1; 1; 1; 0]%Z).
Proof.
  assert (Hg : grid centre_seed) by concrete_grid.
  assert (Hp : produces (spread_lattice centre_seed 1) scenario_A_states).
  { exists (mk_generator (lattice_next 1) (Created centre_seed)), 4.
    split; reflexivity. }
  assert (H0 : nth_error scenario_A_states 0 = Some centre_seed)
    by reflexivity.
  assert (H1 : nth_error scenario_A_states 1 =
               Some (array [5] [0; 1; 1; 1; 0]%Z)) by reflexivity.
  split; [exact Hg|]. split; [exact Hp|]. split; [exact H0|].
  split; [exact H1|].
  exact (@infected_count_strictly_grows centre_seed 1 scenario_A_states 0
           centre_seed (array [5] [0; 1; 1; 1; 0]%Z) Hg (or_introl Hp) H0 H1).
Defined.

(** ** Sequences of a single state *)

Lemma trajectory_single (step : ndarray -> ndarray) (a : ndarray) (n : nat) :
  trajectory step a n = [a] -> n = 0.
Proof.
  intros H. apply (f_equal (@length ndarray)) in H.
  unfold trajectory in H. rewrite length_map, length_seq in H.
  simpl in H. lia.
Qed.

(** X3.  A generator produces the initial state alone exactly when the
    initial state is already stable under its update. *)
Theorem single_state_iff_stable (start : ndarray) (m : Z) :
  wf start ->
  (produces (spread_lattice start m) [start] <->
   lattice_update m start = start) /\
  (produces (spread_torus start m) [start] <->
   torus_update m start = start).
Proof.
  intros H. split; split.
  - intros Hp. destruct (lattice_produced H Hp) as (n & _ & [_ He] & Ht).
    symmetry in Ht. apply trajectory_single in Ht. subst n. exact He.
  - apply (loop_fixed (lattice_or_step m) H).
  - intros Hp. destruct (torus_produced H Hp) as (n & _ & [_ He] & Ht).
    symmetry in Ht. apply trajectory_single in Ht. subst n. exact He.
  - apply (loop_fixed (torus_or_step m) H).
Qed.

Lemma single_state_iff_stable_witness :
  wf diagonal /\
  lattice_update 5 diagonal = diagonal /\
  produces (spread_lattice diagonal 5) [diagonal] /\
  torus_update 5 diagonal = diagonal /\
  produces (spread_torus diagonal 5) [diagonal] /\
  wf centre_seed /\
  lattice_update 1 centre_seed <> centre_seed /\
  ~ produces (spread_lattice centre_seed 1) [centre_seed] /\
  torus_update 1 centre_seed <> centre_seed /\
  ~ produces (spread_torus centre_seed 1) [centre_seed].
Proof.
  assert (Hd : wf diagonal) by reflexivity.
  assert (Hc : wf centre_seed) by reflexivity.
  assert (EL : lattice_update 5 diagonal = diagonal) by reflexivity.
  assert (ET : torus_update 5 diagonal = diagonal) by reflexivity.
  assert (NL : lattice_update 1 centre_seed <> centre_seed)
    by (vm_compute; discriminate).
  assert (NT : torus_update 1 centre_seed <> centre_seed)
    by (vm_compute; discriminate).
  destruct (@single_state_iff_stable diagonal 5 Hd) as [DL DT].
  destruct (@single_state_iff_stable centre_seed 1 Hc) as [CL CT].
  split; [exact Hd|]. split; [exact EL|].
  split; [exact (proj2 DL EL)|]. split; [exact ET|].
  split; [exact (proj2 DT ET)|]. split; [exact Hc|].
  split; [exact NL|].
  split; [exact (fun P => NL (proj1 CL P))|]. split; [exact NT|].
  exact (fun P => NT (proj1 CT P)).
Defined.

(** ** Runs from ordered initial states *)






Section OrderedStarts.

Variables (wa wb : ndarray -> ndarray) (m1 m2 : Z).
Hypothesis wa_shape :
  forall x, shape (wa x) = shape x /\ length (data (wa x)) = size x.
Hypothesis wb_shape :
  forall x, shape (wb x) = shape x /\ length (data (wb x)) = size x.
Hypothesis weights_ordered :
  forall a b, Forall bit (data a) -> Forall bit (data b) -> dims_fit a ->
    below a b -> Forall2 Z.le (data (wa a)) (data (wb b)).
Hypothesis thresholds_ordered : (m1 <= m2)%Z.



End OrderedStarts.








(** ** The counts, neighbour by neighbour *)

Lemma sum_over_ext (axes : list nat) (f g : nat -> Z) :
  (forall i, In i axes -> f i = g i) -> sum_over axes f = sum_over axes g.
Proof.
  induction axes as [|i axes IH]; intros H; simpl; [reflexivity|].
  rewrite (H i (or_introl eq_refl)), IH; [reflexivity|].
  intros j Hj. apply H. right. exact Hj.
Qed.

Lemma lattice_weight_item (a : ndarray) (idx : list nat) :
  Forall bit (data a) -> dims_fit a -> in_bounds (shape a) idx ->
  item (lattice_weight a) idx = neighbours (np_pad1 a) (map S idx).
Proof.
  intros Hb Hd H.
  apply (@item_map_indices _ (shape a)
           (fun j => neighbours (np_pad1 a) (map S j)) idx).
  - apply lattice_weight_shape.
  - apply lattice_weight_data; assumption.
  - exact H.
Qed.

(** One step back from an original cell, seen inside the padded array. *)
Lemma pad_step_back (sh idx : list nat) (axis : nat) :
  in_bounds sh idx -> axis < length sh ->
  interior sh (roll_source (map (fun n => n + 2) sh) (map S idx) 1 axis) =
    (1 <=? nth axis idx 0) /\
  map pred (roll_source (map (fun n => n + 2) sh) (map S idx) 1 axis) =
    set_axis idx axis (nth axis idx 0 - 1).
Proof.
  intros H. revert axis.
  induction H as [|p n idx sh Hp H IH]; intros axis Hax; [simpl in Hax; lia|].
  destruct axis as [|axis]; cbn [roll_source map interior set_axis nth].
  - assert (E : Z.to_nat ((Z.of_nat (S p) - 1) mod Z.of_nat (n + 2)) = p).
    { rewrite Z.mod_small by lia. lia. }
    rewrite E, map_pred_S, (interior_S H), andb_true_r.
    rewrite (proj2 (Nat.leb_le p n)) by lia. rewrite andb_true_r.
    split; [reflexivity|]. f_equal. lia.
  - simpl in Hax. destruct (IH axis ltac:(lia)) as [I1 I2].
    rewrite I1, I2. cbn [pred].
    rewrite (proj2 (Nat.leb_le 1 (S p))) by lia.
    rewrite (proj2 (Nat.leb_le (S p) n)) by lia.
    split; reflexivity.
Qed.

(** One step forward from an original cell, seen inside the padded array. *)
Lemma pad_step_forward (sh idx : list nat) (axis : nat) :
  in_bounds sh idx -> axis < length sh ->
  interior sh (roll_source (map (fun n => n + 2) sh) (map S idx) (-1) axis) =
    (nth axis idx 0 + 2 <=? nth axis sh 0) /\
  map pred (roll_source (map (fun n => n + 2) sh) (map S idx) (-1) axis) =
    set_axis idx axis (nth axis idx 0 + 1).
Proof.
  intros H. revert axis.
  induction H as [|p n idx sh Hp H IH]; intros axis Hax; [simpl in Hax; lia|].
  destruct axis as [|axis]; cbn [roll_source map interior set_axis nth].
  - assert (E : Z.to_nat ((Z.of_nat (S p) - -1) mod Z.of_nat (n + 2)) = p + 2).
    { rewrite Z.mod_small by lia. lia. }
    rewrite E, map_pred_S, (interior_S H), andb_true_r.
    rewrite (proj2 (Nat.leb_le 1 (p + 2))) by lia. cbn [andb].
    split; [reflexivity|]. f_equal. lia.
  - simpl in Hax. destruct (IH axis ltac:(lia)) as [I1 I2].
    rewrite I1, I2. cbn [pred].
    rewrite (proj2 (Nat.leb_le 1 (S p))) by lia.
    rewrite (proj2 (Nat.leb_le (S p) n)) by lia.
    split; reflexivity.
Qed.

Lemma pad_axis_term (a : ndarray) (idx : list nat) (axis : nat) :
  in_bounds (shape a) idx -> axis < ndim a ->
  axis_term (np_pad1 a) (map S idx) axis = lattice_term a idx axis.
Proof.
  intros H Hax. unfold axis_term, lattice_term. cbn [shape np_pad1 tabulate].
  rewrite !pad_item by (apply roll_source_in_bounds, in_bounds_pad, H).
  destruct (pad_step_back H Hax) as [B1 B2].
  destruct (pad_step_forward H Hax) as [F1 F2].
  rewrite B1, B2, F1, F2. reflexivity.
Qed.

(** X6.  On a 0/1 grid of integer dtype, the count that [spread_lattice]
    computes by padding, rolling and slicing is, for every cell, the
    number of infected cells
    among its neighbours that lie on the grid: along each axis the cell
    before (if the coordinate is not 0) and the cell after (if the
    coordinate is not the last); neighbours off the grid count for nothing.
    The count lies between 0 and twice the number of axes. *)
Theorem lattice_weight_counts_grid_neighbours (a : ndarray) (idx : list nat) :
  grid a -> dims_fit a -> in_bounds (shape a) idx ->
  item (lattice_weight a) idx = lattice_neighbours a idx /\
  (0 <= item (lattice_weight a) idx <= 2 * Z.of_nat (ndim a))%Z.
Proof.
  intros [Hw Hb] Hd H. rewrite lattice_weight_item by assumption. split.
  - unfold neighbours, lattice_neighbours. rewrite pad_ndim.
    apply sum_over_ext. intros i Hi. apply in_seq in Hi.
    apply pad_axis_term; [exact H | lia].
  - rewrite <- (pad_ndim a). apply neighbours_range, pad_bits, Hb.
Qed.

Lemma lattice_weight_counts_grid_neighbours_witness :
  grid corner_seed /\ dims_fit corner_seed /\
  in_bounds (shape corner_seed) [0] /\
  item (lattice_weight corner_seed) [0] = lattice_neighbours corner_seed [0].
Proof.
  assert (Hg : grid corner_seed) by concrete_grid.
  assert (Hd : dims_fit corner_seed) by (vm_compute; discriminate).
  assert (Hi : in_bounds (shape corner_seed) [0])
    by (repeat constructor).
  split; [exact Hg|]. split; [exact Hd|]. split; [exact Hi|].
  exact (proj1 (@lattice_weight_counts_grid_neighbours corner_seed [0]
                  Hg Hd Hi)).
Defined.

Lemma roll_back_coordinate (p n : nat) :
  p < n -> Z.to_nat ((Z.of_nat p - 1) mod Z.of_nat n) = (p + n - 1) mod n.
Proof.
  intros H.
  replace (Z.of_nat p - 1)%Z with (Z.of_nat (p + n - 1) + (-1) * Z.of_nat n)%Z
    by lia.
  rewrite Z.mod_add by lia. rewrite <- Nat2Z.inj_mod. apply Nat2Z.id.
Qed.

Lemma roll_forward_coordinate (p n : nat) :
  Z.to_nat ((Z.of_nat p - -1) mod Z.of_nat n) = (p + 1) mod n.
Proof.
  replace (Z.of_nat p - -1)%Z with (Z.of_nat (p + 1)) by lia.
  rewrite <- Nat2Z.inj_mod. apply Nat2Z.id.
Qed.

Lemma roll_source_set_axis (sh idx : list nat) (axis : nat) :
  in_bounds sh idx -> axis < length sh ->
  roll_source sh idx 1 axis =
    set_axis idx axis ((nth axis idx 0 + nth axis sh 0 - 1) mod nth axis sh 0) /\
  roll_source sh idx (-1) axis =
    set_axis idx axis ((nth axis idx 0 + 1) mod nth axis sh 0).
Proof.
  intros H. revert axis.
  induction H as [|p n idx sh Hp H IH]; intros axis Hax; [simpl in Hax; lia|].
  destruct axis as [|axis]; cbn [roll_source set_axis nth].
  - rewrite roll_back_coordinate by exact Hp.
    rewrite roll_forward_coordinate. split; reflexivity.
  - simpl in Hax. destruct (IH axis ltac:(lia)) as [I1 I2].
    rewrite I1, I2. split; reflexivity.
Qed.



(** ** The update rule, cell by cell *)

Lemma threshold_or_item (w a : ndarray) (m : Z) (idx : list nat) :
  wf a -> shape w = shape a -> length (data w) = size a ->
  in_bounds (shape a) idx ->
  item (np_or (np_where_ge w m) a) idx =
  Z.lor (if (m <=? item w idx)%Z then 1 else 0) (item a idx).
Proof.
  intros Hw Hs Hl H. unfold item. cbn [shape data np_or np_where_ge].
  rewrite Hs. set (j := ravel (shape a) idx).
  assert (Hj : j < length (data a)).
  { unfold wf in Hw. rewrite Hw. apply ravel_lt. exact H. }
  rewrite (nth_zip_with Z.lor _ (data a) 0%Z 0%Z 0%Z)
    by (rewrite ?length_map; congruence).
  f_equal.
  rewrite nth_indep with (d' := (if (m <=? 0)%Z then 1%Z else 0%Z))
    by (rewrite length_map; unfold wf in Hw; lia).
  apply (map_nth (fun w0 => if (m <=? w0)%Z then 1%Z else 0%Z)).
Qed.

Lemma rule_value (m c v : Z) :
  bit v ->
  Z.lor (if (m <=? c)%Z then 1 else 0) v =
  (if (v =? 1)%Z || (m <=? c)%Z then 1%Z else 0%Z).
Proof. intros [->| ->]; destruct (m <=? c)%Z; reflexivity. Qed.

(** X8.  The update rule, cell by cell, on a 0/1 grid of integer dtype:
    after one update a cell is infected exactly when it was infected
    already or the number of
    its infected neighbours (on the grid for [spread_lattice], cyclic for
    [spread_torus]) is at least [m]; otherwise it holds 0. *)
Theorem update_rule (a : ndarray) (m : Z) (idx : list nat) :
  grid a -> dims_fit a -> in_bounds (shape a) idx ->
  item (lattice_update m a) idx =
    (if (item a idx =? 1)%Z || (m <=? lattice_neighbours a idx)%Z
     then 1%Z else 0%Z) /\
  item (torus_update m a) idx =
    (if (item a idx =? 1)%Z || (m <=? torus_neighbours a idx)%Z
     then 1%Z else 0%Z).
Proof.
  intros Hg Hd H. pose proof Hg as [Hw Hb]. split.
  - unfold lattice_update. cbv zeta.
    rewrite threshold_or_item;
      [| exact Hw | apply lattice_weight_shape | apply lattice_weight_shape
       | exact H].
    rewrite lattice_weight_item by assumption.
    replace (neighbours (np_pad1 a) (map S idx))
      with (lattice_neighbours a idx).
    + apply rule_value, item_bit, Hb.
    + unfold neighbours, lattice_neighbours. rewrite pad_ndim.
      apply sum_over_ext. intros i Hi. apply in_seq in Hi. symmetry.
      apply pad_axis_term; [exact H | lia].
  - unfold torus_update. cbv zeta.
    rewrite threshold_or_item;
      [| exact Hw | apply torus_weight_shape | apply torus_weight_shape
       | exact H].
    rewrite torus_weight_item by assumption.
    replace (neighbours a idx) with (torus_neighbours a idx).
    + apply rule_value, item_bit, Hb.
    + unfold neighbours, torus_neighbours.
      apply sum_over_ext. intros i Hi. apply in_seq in Hi.
      unfold axis_term, torus_term.
      destruct (@roll_source_set_axis (shape a) idx i H
                  ltac:(unfold ndim in Hi; lia)) as [R1 R2].
      rewrite R1, R2. reflexivity.
Qed.

Lemma update_rule_witness :
  grid corner_seed /\ dims_fit corner_seed /\
  in_bounds (shape corner_seed) [4] /\
  item (lattice_update 1 corner_seed) [4] =
    (if Z.eqb (item corner_seed [4]) 1 ||
        Z.leb 1 (lattice_neighbours corner_seed [4])
     then 1%Z else 0%Z) /\
  item (torus_update 1 corner_seed) [4] =
    (if Z.eqb (item corner_seed [4]) 1 ||
        Z.leb 1 (torus_neighbours corner_seed [4])
     then 1%Z else 0%Z).
Proof.
  assert (Hg : grid corner_seed) by concrete_grid.
  assert (Hd : dims_fit corner_seed) by (vm_compute; discriminate).
  assert (Hi : in_bounds (shape corner_seed) [4])
    by (repeat constructor).
  split; [exact Hg|]. split; [exact Hd|]. split; [exact Hi|].
  exact (@update_rule corner_seed 1 [4] Hg Hd Hi).
Defined.

(** ** Thresholds that no count reaches *)

Lemma or_zeros {A : Type} (I : list A) (l : list Z) :
  length l = length I ->
  zip_with Z.lor (map (fun _ => 0%Z) I) l = l.
Proof.
  revert l; induction I as [|i I IH]; intros [|v l] Hl; simpl in *;
    try discriminate; [reflexivity|].
  rewrite IH by lia. reflexivity.
Qed.

Lemma unreached_threshold_stable (w a : ndarray) (m : Z)
  (c : list nat -> Z) :
  wf a -> shape w = shape a -> data w = map c (indices (shape a)) ->
  (forall idx, (c idx < m)%Z) ->
  np_or (np_where_ge w m) a = a.
Proof.
  intros Hw Hs Hd Hc. apply ndarray_eq; [exact Hs|].
  cbn [data np_or np_where_ge]. rewrite Hd, map_map.
  rewrite (map_ext _ (fun _ => 0%Z)).
  - apply or_zeros. rewrite length_indices. exact Hw.
  - intros idx. specialize (Hc idx).
    destruct (Z.leb_spec m (c idx)); [lia | reflexivity].
Qed.

Lemma lattice_stable_below_threshold (a : ndarray) (m : Z) :
  grid a -> dims_fit a ->
  (forall idx, (neighbours (np_pad1 a) idx < m)%Z) ->
  lattice_update m a = a.
Proof.
  intros [Hw Hb] Hd Hc.
  apply (@unreached_threshold_stable (lattice_weight a) a m
           (fun idx => neighbours (np_pad1 a) (map S idx)));
    [exact Hw | apply lattice_weight_shape
     | apply lattice_weight_data; assumption | intros idx; apply Hc].
Qed.

Lemma torus_stable_below_threshold (a : ndarray) (m : Z) :
  grid a -> dims_fit a ->
  (forall idx, (neighbours a idx < m)%Z) ->
  torus_update m a = a.
Proof.
  intros [Hw Hb] Hd Hc.
  apply (@unreached_threshold_stable (torus_weight a) a m (neighbours a));
    [exact Hw | apply torus_weight_shape
     | apply torus_weight_data; assumption | exact Hc].
Qed.

(** X9.  A threshold larger than the number of neighbours a cell can have
    ([2 * ndim]) stops the spread at once: from any 0/1 grid both
    generators produce the initial state alone. *)
Theorem threshold_above_neighbourhood_never_spreads (start : ndarray) (m : Z) :
  grid start -> dims_fit start -> (2 * Z.of_nat (ndim start) < m)%Z ->
  produces (spread_lattice start m) [start] /\
  produces (spread_torus start m) [start].
Proof.
  intros Hg Hd Hm. pose proof Hg as [Hw Hb]. split.
  - apply (loop_fixed (lattice_or_step m) Hw).
    apply lattice_stable_below_threshold; [exact Hg | exact Hd |].
    intros idx.
    pose proof (neighbours_range (np_pad1 start) idx (@pad_bits start Hb)) as R.
    rewrite pad_ndim in R. lia.
  - apply (loop_fixed (torus_or_step m) Hw).
    apply torus_stable_below_threshold; [exact Hg | exact Hd |].
    intros idx. pose proof (neighbours_range start idx Hb). lia.
Qed.

Lemma threshold_above_neighbourhood_never_spreads_witness :
  grid diagonal /\ dims_fit diagonal /\
  (2 * Z.of_nat (ndim diagonal) < 5)%Z /\
  produces (spread_lattice diagonal 5) [diagonal] /\
  produces (spread_torus diagonal 5) [diagonal].
Proof.
  assert (Hg : grid diagonal) by concrete_grid.
  assert (Hd : dims_fit diagonal) by (vm_compute; discriminate).
  assert (Hm : (2 * Z.of_nat (ndim diagonal) < 5)%Z) by (vm_compute; reflexivity).
  split; [exact Hg|]. split; [exact Hd|]. split; [exact Hm|].
  exact (@threshold_above_neighbourhood_never_spreads diagonal 5 Hg Hd Hm).
Defined.

Lemma item_zero (x : ndarray) (idx : list nat) :
  Forall (eq 0%Z) (data x) -> item x idx = 0%Z.
Proof.
  intros H. unfold item.
  destruct (nth_in_or_default (ravel (shape x) idx) (data x) 0%Z) as [Hin | E];
    [|exact E].
  rewrite Forall_forall in H. symmetry. apply H, Hin.
Qed.

Lemma sum_over_zero (axes : list nat) (f : nat -> Z) :
  (forall i, f i = 0%Z) -> sum_over axes f = 0%Z.
Proof.
  intros H. induction axes as [|i axes IH]; simpl; [reflexivity|].
  rewrite H, IH. reflexivity.
Qed.

Lemma neighbours_zero (x : ndarray) (idx : list nat) :
  Forall (eq 0%Z) (data x) -> neighbours x idx = 0%Z.
Proof.
  intros H. unfold neighbours. apply sum_over_zero. intros i.
  unfold axis_term. rewrite !item_zero by exact H. reflexivity.
Qed.

Lemma pad_zero (a : ndarray) :
  Forall (eq 0%Z) (data a) -> Forall (eq 0%Z) (data (np_pad1 a)).
Proof.
  intros H. unfold np_pad1. cbn [data tabulate].
  apply Forall_map, Forall_forall. intros idx _.
  destruct (interior (shape a) idx); [|reflexivity].
  symmetry. apply item_zero, H.
Qed.

Lemma zeros_are_bits (l : list Z) : Forall (eq 0%Z) l -> Forall bit l.
Proof. apply Forall_impl. intros v <-. left. reflexivity. Qed.

(** X10.  Without any infected cell nothing ever spreads when the threshold
    is positive: from an all-zero array both generators produce the initial
    state alone. *)
Theorem no_infection_never_spreads (start : ndarray) (m : Z) :
  wf start -> Forall (eq 0%Z) (data start) -> dims_fit start -> (0 < m)%Z ->
  produces (spread_lattice start m) [start] /\
  produces (spread_torus start m) [start].
Proof.
  intros Hw Hz Hd Hm.
  assert (Hg : grid start) by (split; [exact Hw | apply zeros_are_bits, Hz]).
  split.
  - apply (loop_fixed (lattice_or_step m) Hw).
    apply lattice_stable_below_threshold; [exact Hg | exact Hd |].
    intros idx. rewrite neighbours_zero by (apply pad_zero, Hz). exact Hm.
  - apply (loop_fixed (torus_or_step m) Hw).
    apply torus_stable_below_threshold; [exact Hg | exact Hd |].
    intros idx. rewrite neighbours_zero by exact Hz. exact Hm.
Qed.

Lemma no_infection_never_spreads_witness :
  wf (array [3; 3] [0; 0; 0; 0; 0; 0; 0; 0; 0]%Z) /\
  Forall (eq 0%Z) (data (array [3; 3] [0; 0; 0; 0; 0; 0; 0; 0; 0]%Z)) /\
  dims_fit (array [3; 3] [0; 0; 0; 0; 0; 0; 0; 0; 0]%Z) /\
  (0 < 2)%Z /\
  produces (spread_lattice (array [3; 3] [0; 0; 0; 0; 0; 0; 0; 0; 0]%Z) 2)
    [array [3; 3] [0; 0; 0; 0; 0; 0; 0; 0; 0]%Z] /\
  produces (spread_torus (array [3; 3] [0; 0; 0; 0; 0; 0; 0; 0; 0]%Z) 2)
    [array [3; 3] [0; 0; 0; 0; 0; 0; 0; 0; 0]%Z].
Proof.
  assert (Hw : wf (array [3; 3] [0; 0; 0; 0; 0; 0; 0; 0; 0]%Z))
    by reflexivity.
  assert (Hz : Forall (eq 0%Z)
                 (data (array [3; 3] [0; 0; 0; 0; 0; 0; 0; 0; 0]%Z)))
    by (repeat constructor).
  assert (Hd : dims_fit (array [3; 3] [0; 0; 0; 0; 0; 0; 0; 0; 0]%Z))
    by (vm_compute; discriminate).
  assert (Hm : (0 < 2)%Z) by lia.
  split; [exact Hw|]. split; [exact Hz|]. split; [exact Hd|].
  split; [exact Hm|].
  exact (@no_infection_never_spreads
           (array [3; 3] [0; 0; 0; 0; 0; 0; 0; 0; 0]%Z) 2 Hw Hz Hd Hm).
Defined.

(** * The demonstration program *)

(** ** The planes stacked by the first loop *)

Lemma roll_bits (a : ndarray) (k : Z) (axis : nat) :
  Forall bit (data a) -> Forall bit (data (np_roll a k axis)).
Proof.
  intros H. unfold np_roll. cbn [data tabulate].
  apply Forall_map, Forall_forall. intros idx _. apply item_bit, H.
Qed.

Lemma eye_bits (N : nat) : Forall bit (data (np_eye N)).
Proof.
  unfold np_eye. cbn [data tabulate]. apply Forall_map, Forall_forall.
  intros [|r [|c [|x idx]]] _; try (left; reflexivity).
  destruct (r =? c); [right | left]; reflexivity.
Qed.

Lemma demo_plane_shape (N i : nat) : shape (demo_plane N i) = [N; N].
Proof. induction i as [|i IH]; [reflexivity | exact IH]. Qed.

Lemma demo_plane_wf (N i : nat) : wf (demo_plane N i).
Proof. destruct i; apply tabulate_wf. Qed.

Lemma demo_plane_length (N i : nat) :
  length (data (demo_plane N i)) = prod [N; N].
Proof.
  pose proof (demo_plane_wf N i) as H. unfold wf, size in H.
  rewrite demo_plane_shape in H. exact H.
Qed.

Lemma demo_plane_bits (N i : nat) : Forall bit (data (demo_plane N i)).
Proof.
  induction i as [|i IH]; [apply eye_bits|].
  change (demo_plane N (S i)) with (np_roll (demo_plane N i) 1 0).
  apply roll_bits, IH.
Qed.

Lemma shifted_diagonal (N i j k : nat) :
  j < N -> k < N ->
  ((j + N - 1) mod N =? (i + k) mod N) = (j =? (S i + k) mod N).
Proof.
  intros Hj Hk.
  assert (HN : N <> 0) by lia.
  pose proof (Nat.mod_upper_bound (i + k) N HN) as Hr.
  replace (S i + k) with ((i + k) + 1) by lia.
  rewrite <- (Nat.Div0.add_mod_idemp_l (i + k) 1 N).
  set (r := (i + k) mod N) in *.
  destruct (Nat.eq_dec j 0) as [-> | Hj0].
  - replace (0 + N - 1) with (N - 1) by lia.
    rewrite (Nat.mod_small (N - 1) N) by lia.
    destruct (Nat.eq_dec (r + 1) N) as [E | E].
    + rewrite E, Nat.Div0.mod_same.
      rewrite (proj2 (Nat.eqb_eq (N - 1) r)) by lia. reflexivity.
    + rewrite (Nat.mod_small (r + 1) N) by lia.
      rewrite (proj2 (Nat.eqb_neq (N - 1) r)) by lia.
      rewrite (proj2 (Nat.eqb_neq 0 (r + 1))) by lia. reflexivity.
  - replace (j + N - 1) with ((j - 1) + 1 * N) by lia.
    rewrite Nat.Div0.mod_add, (Nat.mod_small (j - 1) N) by lia.
    destruct (Nat.eq_dec (r + 1) N) as [E | E].
    + rewrite E, Nat.Div0.mod_same.
      rewrite (proj2 (Nat.eqb_neq (j - 1) r)) by lia.
      rewrite (proj2 (Nat.eqb_neq j 0)) by lia. reflexivity.
    + rewrite (Nat.mod_small (r + 1) N) by lia.
      destruct (Nat.eq_dec (j - 1) r) as [E' | E'].
      * rewrite (proj2 (Nat.eqb_eq (j - 1) r)) by lia.
        rewrite (proj2 (Nat.eqb_eq j (r + 1))) by lia. reflexivity.
      * rewrite (proj2 (Nat.eqb_neq (j - 1) r)) by lia.
        rewrite (proj2 (Nat.eqb_neq j (r + 1))) by lia. reflexivity.
Qed.

Lemma demo_plane_item (N i j k : nat) :
  j < N -> k < N ->
  item (demo_plane N i) [j; k] =
  if j =? (i + k) mod N then 1%Z else 0%Z.
Proof.
  revert j. induction i as [|i IH]; intros j Hj Hk.
  - change (demo_plane N 0) with (np_eye N). unfold np_eye.
    rewrite item_tabulate by (repeat constructor; assumption).
    rewrite (Nat.mod_small (0 + k) N) by lia. reflexivity.
  - change (demo_plane N (S i)) with (np_roll (demo_plane N i) 1 0).
    unfold np_roll. rewrite demo_plane_shape.
    rewrite item_tabulate by (repeat constructor; assumption).
    cbn [roll_source]. rewrite roll_back_coordinate by exact Hj.
    rewrite IH by (try apply Nat.mod_upper_bound; lia).
    rewrite shifted_diagonal by assumption. reflexivity.
Qed.

(** ** The first loop *)

Lemma constant_cells {A : Type} (l : list A) (c : Z) :
  map (fun _ => c) l = repeat c (length l).
Proof. induction l as [|x l IH]; simpl; congruence. Qed.

Lemma skipn_zeros (n m : nat) :
  skipn n (repeat 0%Z m) = repeat 0%Z (m - n).
Proof.
  revert m; induction n as [|n IH]; intros [|m]; simpl; auto.
Qed.

Lemma same_shape_refl (sh : list nat) : same_shape sh sh = true.
Proof.
  induction sh as [|n sh IH]; [reflexivity|]. simpl.
  rewrite Nat.eqb_refl, IH. reflexivity.
Qed.

Lemma stacked_length (N t : nat) :
  length (flat_map (fun i => data (demo_plane N i)) (seq 0 t)) =
  t * prod [N; N].
Proof.
  rewrite flat_map_constant_length with (c := prod [N; N]).
  - rewrite length_seq. reflexivity.
  - intros i _. apply demo_plane_length.
Qed.

(** After [t] passes the first [t] slabs hold the first [t] planes and the
    remaining slabs are still zero. *)
Lemma first_loop_invariant (N t : nat) :
  t <= N ->
  fold_left
    (fun st i =>
       match st with
       | Some (start, plane) =>
           match setitem_slab start i plane with
           | Some start' => Some (start', np_roll plane 1 0)
           | None => None
           end
       | None => None
       end)
    (seq 0 t) (Some (np_zeros [N; N; N], np_eye N)) =
  Some (mk_ndarray [N; N; N]
          (flat_map (fun i => data (demo_plane N i)) (seq 0 t) ++
           repeat 0%Z ((N - t) * prod [N; N])),
        demo_plane N t).
Proof.
  induction t as [|t IH]; intros Ht.
  - cbn [seq fold_left flat_map app]. unfold np_zeros, tabulate.
    rewrite constant_cells, length_indices, Nat.sub_0_r. reflexivity.
  - rewrite seq_S, fold_left_app, IH by lia. cbn [fold_left Nat.add].
    unfold setitem_slab. cbn [shape data].
    rewrite (proj2 (Nat.ltb_lt t N)) by lia.
    rewrite demo_plane_shape, same_shape_refl. cbn [andb].
    f_equal. f_equal. f_equal.
    pose proof (stacked_length N t) as L.
    rewrite firstn_app, skipn_app, L.
    rewrite firstn_all2 by lia. rewrite skipn_all2 by lia.
    replace (t * prod [N; N] - t * prod [N; N]) with 0 by lia.
    replace (S t * prod [N; N] - t * prod [N; N]) with (prod [N; N])
      by (simpl; lia).
    cbn [firstn app]. rewrite app_nil_r, skipn_zeros.
    rewrite flat_map_app. cbn [flat_map]. rewrite app_nil_r, <- app_assoc.
    f_equal. f_equal. f_equal.
    generalize (prod [N; N]). intros P.
    replace (N - t) with (S (N - S t)) by lia.
    rewrite Nat.mul_succ_l. apply Nat.add_sub.
Qed.

Lemma demo_start_value (N : nat) :
  demo_start N =
  Some (mk_ndarray [N; N; N]
          (flat_map (fun i => data (demo_plane N i)) (seq 0 N))).
Proof.
  unfold demo_start. cbv zeta. rewrite first_loop_invariant by lia.
  cbn [option_map fst]. rewrite Nat.sub_diag. cbn [Nat.mul repeat].
  rewrite app_nil_r. reflexivity.
Qed.

Lemma stacked_grid (N : nat) :
  grid (mk_ndarray [N; N; N]
          (flat_map (fun i => data (demo_plane N i)) (seq 0 N))).
Proof.
  split.
  - unfold wf, size. cbn [data shape]. rewrite stacked_length. reflexivity.
  - cbn [data]. apply Forall_forall. intros v Hv.
    apply in_flat_map in Hv. destruct Hv as (i & _ & Hv).
    pose proof (demo_plane_bits N i) as B. rewrite Forall_forall in B.
    apply B, Hv.
Qed.

Lemma stacked_item (N i j k : nat) :
  i < N -> j < N -> k < N ->
  item (mk_ndarray [N; N; N]
          (flat_map (fun i => data (demo_plane N i)) (seq 0 N))) [i; j; k] =
  item (demo_plane N i) [j; k].
Proof.
  intros Hi Hj Hk. unfold item at 1. cbn [shape data].
  change (ravel [N; N; N] [i; j; k])
    with (i * prod [N; N] + ravel [N; N] [j; k]).
  rewrite nth_flat_map_block with (p := prod [N; N]).
  - unfold item. rewrite demo_plane_shape. reflexivity.
  - intros x. apply demo_plane_length.
  - exact Hi.
  - apply ravel_lt. repeat constructor; assumption.
Qed.

(** X11.  The first loop of the demonstration program never fails, for any
    side length [N]: it builds a well-formed 0/1 grid of shape (N, N, N) in
    which cell (i, j, k) is infected exactly when j = (i + k) mod N. *)
Theorem demo_start_is_shifted_diagonal (N : nat) :
  exists start,
    demo_start N = Some start /\
    shape start = [N; N; N] /\
    grid start /\
    forall i j k, i < N -> j < N -> k < N ->
      item start [i; j; k] = if j =? (i + k) mod N then 1%Z else 0%Z.
Proof.
  eexists. split; [apply demo_start_value|]. split; [reflexivity|].
  split; [apply stacked_grid|].
  intros i j k Hi Hj Hk. rewrite stacked_item by assumption.
  apply demo_plane_item; assumption.
Qed.

(** ** The whole program *)

Lemma length_report_from (i : nat) (vs : list ndarray) :
  length (report_from i vs) = 3 * length vs.
Proof.
  revert i; induction vs as [|v vs IH]; intros i; [reflexivity|].
  cbn [report_from length]. rewrite IH. lia.
Qed.

Lemma last_default_unused {A : Type} (l : list A) (x d d' : A) :
  last (x :: l) d = last (x :: l) d'.
Proof.
  revert x; induction l as [|y l IH]; intros x; [reflexivity|].
  change (last (y :: l) d = last (y :: l) d'). apply IH.
Qed.

Lemma last_after_first {A : Type} (l : list A) (x d : A) :
  last (x :: l) d = last l x.
Proof.
  destruct l as [|y l]; [reflexivity|].
  change (last (y :: l) d = last (y :: l) x). apply last_default_unused.
Qed.

(** X12.  The demonstration program runs to its end for every side length
    [N]: the generator is exhausted after at least one and at most
    [N * N * N + 1] states, each printed under its step number, and the
    program then prints exactly one of its two messages, the first one when
    every cell of the last state is 1. *)
Theorem demo_main_completes (N : nat) :
  exists start vs,
    demo_start N = Some start /\
    produces (spread_lattice start 2) vs /\
    1 <= length vs <= N * N * N + 1 /\
    forall fuel, length vs < fuel ->
      demo_main N fuel =
      Some (report_from 0 vs ++
            [if all_ones (last vs start) then AllCellsInfected
             else SpreadHasStopped]).
Proof.
  pose proof (stacked_grid N) as [Hw Hb].
  set (start := mk_ndarray [N; N; N]
                  (flat_map (fun i => data (demo_plane N i)) (seq 0 N))) in *.
  destruct (drain_created (lattice_or_step 2) Hw) as (n & Hn & _ & _ & Hr).
  exists start, (trajectory (lattice_update 2) start n).
  assert (Hlen : length (trajectory (lattice_update 2) start n) = S n).
  { unfold trajectory. rewrite length_map, length_seq. reflexivity. }
  split; [apply demo_start_value|]. split; [|split].
  - exists (mk_generator (lattice_next 2) (Created start)), (n + 2).
    split; [reflexivity | apply Hr; lia].
  - rewrite Hlen.
    pose proof (susceptible_le_length (data start)) as Hs.
    unfold wf, size in Hw. rewrite Hw in Hs.
    assert (E : prod (shape start) = N * N * N).
    { unfold start. cbn [shape prod fold_right]. ring. }
    rewrite E in Hs. lia.
  - intros fuel Hf. rewrite Hlen in Hf. unfold demo_main.
    rewrite demo_start_value. fold start. unfold spread_lattice.
    change (mk_generator (lattice_next 2) (Created start))
      with (mk_generator (loop_next (lattice_update 2)) (Created start)).
    rewrite Hr by lia. unfold trajectory. cbn [seq map].
    rewrite (last_after_first _ _ start). reflexivity.
Qed.

(** X13.  The program as written ([N = 10], threshold 2, bounded grid)
    prints ten steps, numbered 0 to 9, and then reports that every cell is
    infected: the numbers of infected cells of the ten states are 100, 296,
    486, 668, 840, 940, 968, 986, 996 and 1000. *)
Theorem demo_program_infects_every_cell :
  option_map
    (fun out =>
       (length out,
        last out EmptyLine,
        flat_map
          (fun line =>
             match line with
             | StateDump state => [infected_count state]
             | _ => []
             end) out))
    (demo_main 10 11) =
  Some (31, AllCellsInfected,
        [100; 296; 486; 668; 840; 940; 968; 986; 996; 1000]).
Proof. vm_compute. reflexivity. Qed.

(** * Translations of the periodic grid *)

(** ** Rolls as index maps *)

Lemma seq_offset (b c p : nat) :
  map (fun r => b + r) (seq c p) = seq (b + c) p.
Proof.
  revert c; induction p as [|p IH]; intros c; [reflexivity|].
  cbn [seq map]. f_equal. rewrite IH. f_equal. lia.
Qed.

Lemma block_offsets (p n s : nat) :
  flat_map (fun i => map (fun r => i * p + r) (seq 0 p)) (seq s n) =
  seq (s * p) (n * p).
Proof.
  revert s; induction n as [|n IH]; intros s; [reflexivity|].
  cbn [seq flat_map]. rewrite IH, seq_offset, Nat.add_0_r.
  replace (S n * p) with (p + n * p) by (simpl; lia).
  rewrite seq_app. f_equal. f_equal. simpl. lia.
Qed.

Lemma ravel_indices (sh : list nat) :
  map (ravel sh) (indices sh) = seq 0 (prod sh).
Proof.
  induction sh as [|n sh IH]; [reflexivity|].
  change (prod (n :: sh)) with (n * prod sh). cbn [indices].
  transitivity (seq (0 * prod sh) (n * prod sh)); [|reflexivity].
  rewrite <- (block_offsets (prod sh) n 0).
  rewrite flat_map_concat_map, concat_map, map_map, <- flat_map_concat_map.
  apply flat_map_ext. intros i. rewrite map_map.
  cbn [ravel]. rewrite <- IH, map_map. reflexivity.
Qed.

Lemma nth_all_positions (l : list Z) :
  map (fun j => nth j l 0%Z) (seq 0 (length l)) = l.
Proof.
  induction l as [|v l IH]; [reflexivity|].
  cbn [length seq map nth]. f_equal.
  rewrite <- seq_shift, map_map. exact IH.
Qed.

(** Reading every cell of a well-formed array gives the array back. *)
Lemma tabulate_item (a : ndarray) : wf a -> tabulate (shape a) (item a) = a.
Proof.
  intros H. apply ndarray_eq; [reflexivity|]. cbn [data tabulate].
  unfold item.
  rewrite <- (map_map (ravel (shape a)) (fun j => nth j (data a) 0%Z)).
  rewrite ravel_indices. unfold wf, size in H. rewrite <- H.
  apply nth_all_positions.
Qed.

Lemma roll_item (a : ndarray) (k : Z) (axis : nat) (idx : list nat) :
  in_bounds (shape a) idx ->
  item (np_roll a k axis) idx = item a (roll_source (shape a) idx k axis).
Proof.
  intros H. unfold np_roll. rewrite item_tabulate by exact H. reflexivity.
Qed.

Lemma roll_source_comm (sh idx : list nat) (k1 k2 : Z) (i1 i2 : nat) :
  in_bounds sh idx ->
  roll_source sh (roll_source sh idx k1 i1) k2 i2 =
  roll_source sh (roll_source sh idx k2 i2) k1 i1.
Proof.
  intros H. revert i1 i2.
  induction H as [|p n idx sh Hp H IH]; intros i1 i2; [reflexivity|].
  destruct i1 as [|i1], i2 as [|i2]; cbn [roll_source]; try reflexivity.
  - f_equal.
    pose proof (Z.mod_pos_bound (Z.of_nat p - k1) (Z.of_nat n) ltac:(lia)).
    pose proof (Z.mod_pos_bound (Z.of_nat p - k2) (Z.of_nat n) ltac:(lia)).
    rewrite !Z2Nat.id by lia. rewrite !Zminus_mod_idemp_l.
    f_equal. f_equal. lia.
  - f_equal. apply IH.
Qed.

Lemma roll_source_undo (sh idx : list nat) (k : Z) (axis : nat) :
  in_bounds sh idx ->
  roll_source sh (roll_source sh idx (- k) axis) k axis = idx.
Proof.
  intros H. revert axis.
  induction H as [|p n idx sh Hp H IH]; intros axis; [reflexivity|].
  destruct axis as [|axis]; cbn [roll_source].
  - f_equal.
    pose proof (Z.mod_pos_bound (Z.of_nat p - - k) (Z.of_nat n) ltac:(lia)).
    rewrite Z2Nat.id by lia. rewrite Zminus_mod_idemp_l.
    replace (Z.of_nat p - - k - k)%Z with (Z.of_nat p) by lia.
    rewrite Z.mod_small by lia. apply Nat2Z.id.
  - f_equal. apply IH.
Qed.

(** Rolling back undoes a roll. *)
Lemma roll_undo (a : ndarray) (k : Z) (axis : nat) :
  wf a -> np_roll (np_roll a k axis) (- k) axis = a.
Proof.
  intros H. rewrite <- (tabulate_item H) at 2.
  unfold np_roll at 1. cbn [shape np_roll tabulate].
  unfold tabulate. f_equal. apply map_ext_in. intros idx Hin.
  apply in_indices in Hin.
  rewrite roll_item by (apply roll_source_in_bounds, Hin).
  rewrite roll_source_undo by exact Hin. reflexivity.
Qed.

Lemma roll_injective (a b : ndarray) (k : Z) (axis : nat) :
  wf a -> wf b -> np_roll a k axis = np_roll b k axis -> a = b.
Proof.
  intros Ha Hb E. rewrite <- (roll_undo k axis Ha), <- (roll_undo k axis Hb).
  rewrite E. reflexivity.
Qed.

Lemma roll_grid (a : ndarray) (k : Z) (axis : nat) :
  Forall bit (data a) -> grid (np_roll a k axis).
Proof.
  intros H. split; [apply tabulate_wf | apply roll_bits, H].
Qed.

(** The cyclic count of a rolled grid is the rolled count. *)
Lemma neighbours_roll (a : ndarray) (k : Z) (axis : nat) (idx : list nat) :
  in_bounds (shape a) idx ->
  neighbours (np_roll a k axis) idx =
  neighbours a (roll_source (shape a) idx k axis).
Proof.
  intros H. unfold neighbours.
  change (ndim (np_roll a k axis)) with (ndim a).
  apply sum_over_ext. intros i _. unfold axis_term.
  change (shape (np_roll a k axis)) with (shape a).
  rewrite !roll_item by (apply roll_source_in_bounds, H).
  rewrite (roll_source_comm 1 k i axis H).
  rewrite (roll_source_comm (-1) k i axis H). reflexivity.
Qed.

Lemma torus_update_roll (a : ndarray) (m k : Z) (axis : nat) :
  grid a -> dims_fit a ->
  torus_update m (np_roll a k axis) = np_roll (torus_update m a) k axis.
Proof.
  intros [Hw Hb] Hd.
  pose proof (@roll_grid a k axis Hb) as [Hw' Hb'].
  apply ndarray_eq.
  - unfold torus_update, np_or, np_where_ge. cbn [shape].
    rewrite (proj1 (torus_weight_shape _)), (proj1 (torus_weight_shape a)).
    reflexivity.
  - unfold torus_update at 1. unfold np_or, np_where_ge.
    cbn [data]. rewrite torus_weight_data by assumption.
    change (shape (np_roll a k axis)) with (shape a).
    unfold np_roll at 2 3. cbn [data tabulate].
    change (shape (torus_update m a)) with (shape (torus_weight a)).
    rewrite (proj1 (torus_weight_shape a)).
    rewrite map_map, zip_with_map. apply map_ext_in. intros idx Hin.
    apply in_indices in Hin.
    rewrite neighbours_roll by exact Hin.
    pose proof (@roll_source_in_bounds (shape a) idx k axis Hin) as Hin'.
    unfold torus_update. cbv zeta.
    rewrite threshold_or_item;
      [| exact Hw | apply torus_weight_shape | apply torus_weight_shape
       | exact Hin'].
    rewrite torus_weight_item by assumption. reflexivity.
Qed.

(** ** Runs from a rolled grid *)

Lemma stops_at_unique (step : ndarray -> ndarray) (a : ndarray) (n n' : nat) :
  stops_at step a n -> stops_at step a n' -> n = n'.
Proof.
  intros [Hd He] [Hd' He'].
  destruct (Nat.lt_trichotomy n n') as [L | [E | L]]; [|exact E|].
  - exfalso. apply (Hd' n L). exact He.
  - exfalso. apply (Hd n' L). exact He'.
Qed.

Lemma iterate_torus_roll (a : ndarray) (m k : Z) (axis j : nat) :
  grid a -> dims_fit a ->
  iterate (torus_update m) j (np_roll a k axis) =
  np_roll (iterate (torus_update m) j a) k axis.
Proof.
  intros Hg Hd. induction j as [|j IH]; [reflexivity|].
  change (iterate (torus_update m) (S j) (np_roll a k axis))
    with (torus_update m (iterate (torus_update m) j (np_roll a k axis))).
  change (iterate (torus_update m) (S j) a)
    with (torus_update m (iterate (torus_update m) j a)).
  rewrite IH. apply torus_update_roll.
  - apply (iterate_grid (torus_or_step m) j Hg).
  - unfold dims_fit, ndim in *.
    rewrite (iterate_shape (torus_or_step m) j (proj1 Hg)). exact Hd.
Qed.

(** X14.  The periodic spread has no preferred origin: updating a 0/1 grid
    that was rolled cyclically along an axis gives the rolled update, and
    the sequence [spread_torus] produces from the rolled grid is the
    sequence it produces from the original grid with every state rolled
    the same way. *)
Theorem torus_spread_commutes_with_roll
  (start : ndarray) (m k : Z) (axis : nat) :
  grid start -> dims_fit start ->
  torus_update m (np_roll start k axis) =
    np_roll (torus_update m start) k axis /\
  (forall vs, produces (spread_torus start m) vs ->
     produces (spread_torus (np_roll start k axis) m)
       (map (fun s => np_roll s k axis) vs)).
Proof.
  intros Hg Hd. split; [apply torus_update_roll; assumption|].
  intros vs Hp. pose proof Hg as [Hw Hb].
  destruct (torus_produced Hw Hp) as (n & _ & [Hdiff Hfix] & ->).
  pose proof (@roll_grid start k axis Hb) as Hg'.
  destruct (torus_produces m (proj1 Hg')) as (n' & _ & Hs' & Hp').
  assert (Hs : stops_at (torus_update m) (np_roll start k axis) n).
  { split.
    - intros j Hj E. rewrite !iterate_torus_roll in E by assumption.
      apply roll_injective in E;
        [| apply (iterate_wf (torus_or_step m) (S j) Hw)
         | apply (iterate_wf (torus_or_step m) j Hw)].
      exact (Hdiff j Hj E).
    - rewrite !iterate_torus_roll by assumption. rewrite Hfix. reflexivity. }
  rewrite (stops_at_unique Hs' Hs) in Hp'.
  replace (map (fun s => np_roll s k axis)
             (trajectory (torus_update m) start n))
    with (trajectory (torus_update m) (np_roll start k axis) n); [exact Hp'|].
  unfold trajectory. rewrite map_map. apply map_ext. intros j.
  apply iterate_torus_roll; assumption.
Qed.

Lemma torus_spread_commutes_with_roll_witness :
  grid corner_seed /\ dims_fit corner_seed /\
  torus_update 1 (np_roll corner_seed 2 0) =
    np_roll (torus_update 1 corner_seed) 2 0.
Proof.
  assert (Hg : grid corner_seed) by concrete_grid.
  assert (Hd : dims_fit corner_seed) by (vm_compute; discriminate).
  split; [exact Hg|]. split; [exact Hd|].
  exact (proj1 (@torus_spread_commutes_with_roll corner_seed 1 2 0 Hg Hd)).
Defined.

(** * Where the runs end *)





